(** * Import scanner: resolver, scanner, graph builder and cycle detector

    A shallow embedding of [scanner_gui_v0.7.py] (the functions [to_fqn],
    [resolve_from_import], [strongly_connected_components] and the class
    [ImportScanner]) together with the properties of these functions.

    Conventions of the embedding:
    - Python [str] is [string]; Python [int] is [Z] where the value comes
      from the input ([level]) and [nat] for the discovery counter, which
      only counts up from 0.
    - A Python [dict] whose iteration order is observable ([module_info],
      [graph]) is an association list in insertion order; [indices] and
      [lowlink], which are only indexed, are [gmap]s; Python [set]s are
      [gset]s, iterated in the order of [elements].
    - Exceptions are explicit: a function that can raise returns a
      [result]. *)

From Stdlib Require Import ZArith Ascii String DecimalString List Lia.
From stdpp Require Import base option list strings gmap fin_sets relations sorting.

#[local] Set Warnings "-clear-no-such-hyp".

Local Open Scope string_scope.
Local Open Scope Z_scope.
Local Open Scope list_scope.
Local Open Scope stdpp_scope.

(** ** Exceptions *)

Inductive exn : Type :=
| KeyError
| IndexError
| ValueError
| RecursionError.

Inductive result (A : Type) : Type :=
| Ok (a : A)
| Raise (e : exn).
Arguments Ok {A} a.
Arguments Raise {A} e.

(** Sequencing: [x ← m; k] runs [k] on the value of [m] and propagates an
    exception of [m]. *)
#[global] Instance result_bind : MBind result := λ A B k m,
  match m with
  | Ok a => k a
  | Raise e => Raise e
  end.

(** [for x in l: s = body(s, x)], stopping at the first exception. *)
Fixpoint for_each {A S : Type}
    (body : S → A → result S) (l : list A) (s : S) : result S :=
  match l with
  | [] => Ok s
  | x :: l' => s' ← body s x; for_each body l' s'
  end.

(** [m[k]] on a map that is only indexed. *)
Definition getitem (m : gmap string nat) (k : string) : result nat :=
  match m !! k with
  | Some x => Ok x
  | None => Raise KeyError
  end.

(** ** Python built-ins used by the program *)

Module Py.

(** [s.split(c)] for a one-character separator [c]: never empty. *)
Fixpoint split (c : ascii) (s : string) : list string :=
  match s with
  | EmptyString => [EmptyString]
  | String a s' =>
      if Ascii.eqb a c then EmptyString :: split c s'
      else match split c s' with
           | [] => [String a EmptyString]
           | p :: ps => String a p :: ps
           end
  end.

(** [sep.join(parts)]. *)
Definition join (sep : string) (parts : list string) : string :=
  String.concat sep parts.

(** [l[:stop]]: a negative [stop] counts from the end, and both ends are
    clamped to the list. *)
Definition slice_to {A : Type} (l : list A) (stop : Z) : list A :=
  if stop <? 0
  then take (Z.to_nat (Z.max 0 (Z.of_nat (length l) + stop))) l
  else take (Z.to_nat stop) l.

(** [s.endswith(suffix)]. *)
Definition endswith (s suffix : string) : bool :=
  let n := String.length s in
  let k := String.length suffix in
  (k <=? n)%nat && String.eqb (String.substring (n - k) k s) suffix.

(** [s.rfind(c)]: the position of the last [c], if any. *)
Fixpoint rfind (c : ascii) (s : string) : option nat :=
  match s with
  | EmptyString => None
  | String a s' =>
      match rfind c s' with
      | Some i => Some (S i)
      | None => if Ascii.eqb a c then Some 0%nat else None
      end
  end.

(** Truth value of an optional string: [None] and [""] are false. *)
Definition truthy (o : option string) : bool :=
  match o with
  | None => false
  | Some EmptyString => false
  | Some _ => true
  end.

End Py.

(** ** Resolver *)

(** Paths are sequences of parts ([PurePath.parts]). *)
Abbreviation Path := (list string).

(** [PurePath.stem] of a final component: the name without its last
    suffix; a name has a suffix when its last dot is neither its first nor
    its last character. *)
Definition stem (name : string) : string :=
  match Py.rfind "." name with
  | Some i =>
      if (0 <? i)%nat && (i <? String.length name - 1)%nat
      then String.substring 0 i name
      else name
  | None => name
  end.

(** [path.with_suffix("")]: [ValueError] for a path with an empty name. *)
Definition with_suffix_empty (p : Path) : result Path :=
  match reverse p with
  | [] => Raise ValueError
  | name :: rest => Ok (reverse rest ++ [stem name])
  end.

(** [path.relative_to(root)]: [ValueError] when [root] is not a prefix. *)
Fixpoint relative_to (file_path root : Path) {struct root} : result Path :=
  match root with
  | [] => Ok file_path
  | r :: root' =>
      match file_path with
      | [] => Raise ValueError
      | f :: file_path' =>
          if decide (f = r) then relative_to file_path' root'
          else Raise ValueError
      end
  end.

Definition to_fqn (project_root file_path : Path) : result string :=
  rel ← relative_to file_path project_root;
  rel ← with_suffix_empty rel;
  Ok (Py.join "." rel).

(** The package parts of [resolve_from_import] after the [level]
    adjustment (the first three lines of its body). *)
Definition pkg_parts (current_fqn : string) (level : Z) : list string :=
  let pkg_parts := Py.slice_to (Py.split "." current_fqn) (-1) in
  if level =? 0 then pkg_parts
  else if 1 <? level then Py.slice_to pkg_parts (- level + 1)
  else pkg_parts.

Definition resolve_from_import
    (current_fqn : string) (level : Z) (module : option string) : string :=
  let pkg_parts := pkg_parts current_fqn level in
  match module with
  | Some m =>
      if Py.truthy module then Py.join "." (pkg_parts ++ [m])
      else Py.join "." pkg_parts
  | None => Py.join "." pkg_parts
  end.

(** ** Dictionaries in insertion order *)

Module Dict.
Section Dict.
Context {V : Type}.

(** [d.get(k)] *)
Fixpoint get (d : list (string * V)) (k : string) : option V :=
  match d with
  | [] => None
  | (k', v) :: d' => if decide (k' = k) then Some v else get d' k
  end.

(** [d[k] = v]: an existing key keeps its position, a new key goes to
    the end. *)
Fixpoint set (k : string) (v : V) (d : list (string * V)) : list (string * V) :=
  match d with
  | [] => [(k, v)]
  | (k', v') :: d' =>
      if decide (k' = k) then (k, v) :: d' else (k', v') :: set k v d'
  end.

(** [list(d)]: the keys, in insertion order. *)
Definition keys (d : list (string * V)) : list string := d.*1.

(** [for k, v in items: d[k] = v] *)
Definition update (items d : list (string * V)) : list (string * V) :=
  fold_left (λ d kv, set kv.1 kv.2 d) items d.
End Dict.
End Dict.

(** ** Cycle detector *)

(** [Dict[str, set]] *)
Definition Graph : Type := list (string * gset string).

(** [graph.get(v, ())], in iteration order. *)
Definition successors (graph : Graph) (v : string) : list string :=
  match Dict.get graph v with
  | Some ws => elements ws
  | None => []
  end.

(** The variables shared by [strongly_connected_components] and its inner
    function [dfs]. The head of [stack] is the top of the Python list (its
    last element); [sccs] and every component are in Python order. *)
Record state : Type := State {
  index : nat;
  stack : list string;
  onstack : gset string;
  indices : gmap string nat;
  lowlink : gmap string nat;
  sccs : list (list string);
}.

Definition init : state := State 0 [] ∅ ∅ ∅ [].

(** [indices[v] = lowlink[v] = index; index += 1; stack.append(v);
    onstack.add(v)] *)
Definition enter (v : string) (s : state) : state :=
  {| index := S (index s);
     stack := v :: stack s;
     onstack := {[v]} ∪ onstack s;
     indices := <[v := index s]> (indices s);
     lowlink := <[v := index s]> (lowlink s);
     sccs := sccs s |}.

(** [lowlink[v] = min(lowlink[v], x)] *)
Definition lower (v : string) (x : nat) (s : state) : result state :=
  lv ← getitem (lowlink s) v;
  Ok {| index := index s; stack := stack s; onstack := onstack s;
        indices := indices s;
        lowlink := <[v := Nat.min lv x]> (lowlink s);
        sccs := sccs s |}.

(** The [while True] loop: pop until [v] has been popped. *)
Fixpoint pop_component (v : string) (stack : list string) (onstack : gset string)
    (comp : list string) : result (list string * gset string * list string) :=
  match stack with
  | [] => Raise IndexError
  | w :: stack' =>
      if decide (w ∈ onstack) then
        if decide (w = v) then Ok (stack', onstack ∖ {[w]}, comp ++ [w])
        else pop_component v stack' (onstack ∖ {[w]}) (comp ++ [w])
      else Raise KeyError
  end.

(** The body of [for w in graph.get(v, ())], with the recursive call as a
    parameter. *)
Definition visit_edge (dfs : string → state → result state)
    (v : string) (s : state) (w : string) : result state :=
  if decide (w ∉ dom (indices s)) then
    s ← dfs w s;
    lw ← getitem (lowlink s) w;
    lower v lw s
  else if decide (w ∈ onstack s) then
    iw ← getitem (indices s) w;
    lower v iw s
  else Ok s.

(** The part of [dfs] after the loop over the edges. *)
Definition finish (v : string) (s : state) : result state :=
  lv ← getitem (lowlink s) v;
  iv ← getitem (indices s) v;
  if decide (lv = iv) then
    '(stack', onstack', comp) ← pop_component v (stack s) (onstack s) [];
    Ok {| index := index s; stack := stack'; onstack := onstack';
          indices := indices s; lowlink := lowlink s;
          sccs := if decide (1 < length comp)%nat then sccs s ++ [comp]
                  else sccs s |}
  else Ok s.

(** [dfs], with a bound [depth] on the nesting of calls. *)
Fixpoint dfs (depth : nat) (graph : Graph) (v : string) (s : state) : result state :=
  match depth with
  | O => Raise RecursionError
  | S depth' =>
      s ← for_each (visit_edge (dfs depth' graph) v) (successors graph v) (enter v s);
      finish v s
  end.

(** Every vertex of the graph: its keys and the members of its sets. *)
Definition vertices (graph : Graph) : list string :=
  Dict.keys graph ++ flat_map (λ kv, elements kv.2) graph.

(** Calls of [dfs] nest at most once per vertex (see [dfs_total]); the
    interpreter's own recursion limit is not modelled. *)
Definition depth_bound (graph : Graph) : nat := S (length (vertices graph)).

(** The body of [for v in graph]. *)
Definition visit_root (graph : Graph) (s : state) (v : string) : result state :=
  if decide (v ∉ dom (indices s)) then dfs (depth_bound graph) graph v s else Ok s.

Definition strongly_connected_components (graph : Graph) : result (list (list string)) :=
  s ← for_each (visit_root graph) (Dict.keys graph) init;
  Ok (sccs s).

(** The vertices on which the loop [for v in graph] calls [dfs]. *)
Fixpoint dfs_roots (graph : Graph) (vs : list string) (s : state) : list string :=
  match vs with
  | [] => []
  | v :: vs' =>
      if decide (v ∉ dom (indices s)) then
        v :: match dfs (depth_bound graph) graph v s with
             | Ok s' => dfs_roots graph vs' s'
             | Raise _ => []
             end
      else dfs_roots graph vs' s
  end.

(** ** Scanner *)

(** The nodes that [ast.walk] yields, as far as [_scan_file] reads them:
    [Import] with the [name] of each alias, [ImportFrom] with [module],
    the names of its aliases and [level]. *)
Inductive ast_node : Type :=
| Import (names : list string)
| ImportFrom (module : option string) (names : list string) (level : Z)
| OtherNode.

(** What opening and parsing a file gives: [None] when [open], [read] or
    [ast.parse] raises, otherwise the nodes of the tree in the order of
    [ast.walk]. *)
Definition source : Type := option (list ast_node).

#[warnings="-register-all"]
Inductive fs_node : Type :=
| File (src : source)
| Dir (entries : list (string * fs_node))
| UnreadableDir.

(** The non-directory entries of a listing. *)
Definition nondirs (entries : list (string * fs_node)) : list (string * source) :=
  omap (λ e, match e.2 with File src => Some (e.1, src) | _ => None end) entries.

(** [os.walk(top)], top-down and with errors of [scandir] ignored (the
    default [onerror=None]): a [top] that cannot be listed yields nothing.
    Each file name comes with what reading it gives. *)
Fixpoint os_walk (top : Path) (n : fs_node) : list (Path * list (string * source)) :=
  match n with
  | Dir entries =>
      (top, nondirs entries) ::
      (fix walk_dirs (es : list (string * fs_node)) :=
         match es with
         | [] => []
         | (name, child) :: es' =>
             match child with
             | File _ => walk_dirs es'
             | _ => os_walk (top ++ [name]) child ++ walk_dirs es'
             end
         end) entries
  | File _ | UnreadableDir => []
  end.

(** What is at the project root: nothing, or a node. *)
Definition walk (top : Path) (at_root : option fs_node) : list (Path * list (string * source)) :=
  match at_root with
  | Some n => os_walk top n
  | None => []
  end.

Record ModuleRecord : Type := {
  path : Path;
  imports : list string;
}.

Record ImportScanner : Type := {
  project_root : Path;
  module_info : list (string * ModuleRecord);
}.

(** [ImportScanner(project_root)] *)
Definition new_scanner (project_root : Path) : ImportScanner :=
  {| project_root := project_root; module_info := [] |}.

(** [self.module_info[fqn]["imports"].append(imported)] *)
Definition append_import (fqn : string) (mi : list (string * ModuleRecord))
    (imported : string) : result (list (string * ModuleRecord)) :=
  match Dict.get mi fqn with
  | Some r => Ok (Dict.set fqn {| path := path r; imports := imports r ++ [imported] |} mi)
  | None => Raise KeyError
  end.

(** The body of [for node in ast.walk(tree)]. *)
Definition scan_node (fqn : string) (mi : list (string * ModuleRecord))
    (node : ast_node) : result (list (string * ModuleRecord)) :=
  match node with
  | Import names => for_each (append_import fqn) names mi
  | ImportFrom module _ level =>
      append_import fqn mi (resolve_from_import fqn level module)
  | OtherNode => Ok mi
  end.

Definition _scan_file (src : source) (fqn : string)
    (mi : list (string * ModuleRecord)) : result (list (string * ModuleRecord)) :=
  match src with
  | None => Ok mi
  | Some nodes => for_each (scan_node fqn) nodes mi
  end.

(** The body of [for file in files]. *)
Definition scan_entry (project_root root : Path) (mi : list (string * ModuleRecord))
    (file : string * source) : result (list (string * ModuleRecord)) :=
  if Py.endswith file.1 ".py" then
    let path := root ++ [file.1] in
    fqn ← to_fqn project_root path;
    _scan_file file.2 fqn (Dict.set fqn {| path := path; imports := [] |} mi)
  else Ok mi.

(** The body of [for root, _, files in os.walk(self.project_root)]. *)
Definition scan_dir (project_root : Path) (mi : list (string * ModuleRecord))
    (d : Path * list (string * source)) : result (list (string * ModuleRecord)) :=
  for_each (scan_entry project_root d.1) d.2 mi.

(** The loops of [scan] over what [os.walk] yields, from the cleared
    [module_info]. *)
Definition scan_walk (project_root : Path) (w : list (Path * list (string * source)))
    : result (list (string * ModuleRecord)) :=
  for_each (scan_dir project_root) w [].

(** [self.scan()], given what is at [self.project_root]. *)
Definition scan (at_root : option fs_node) (self : ImportScanner) : result ImportScanner :=
  mi ← scan_walk (project_root self) (walk (project_root self) at_root);
  Ok {| project_root := project_root self; module_info := mi |}.

Definition build_graph (self : ImportScanner) : Graph :=
  fold_left (λ graph item, Dict.set item.1 (list_to_set (imports item.2)) graph)
    (module_info self) [].

Definition find_cycles (self : ImportScanner) : result (list (list string)) :=
  strongly_connected_components (build_graph self).

(** ** The specification's vocabulary *)

(** Dropping [n] trailing segments, none being left when [n] is the length
    or more. *)
Definition drop_trailing {A : Type} (n : nat) (l : list A) : list A :=
  reverse (drop n (reverse l)).

(** The segments of a dotted name except the last. *)
Definition package_of (fqn : string) : list string :=
  removelast (Py.split "." fqn).

(** The module name of a from-import, when there is one to append. *)
Definition module_part (module : option string) : list string :=
  match module with
  | Some m => if Py.truthy module then [m] else []
  | None => []
  end.

(** The import targets of one node and of one file, in order: each name
    of a plain import, and one resolved name per from-import. *)
Definition node_targets (fqn : string) (node : ast_node) : list string :=
  match node with
  | Import names => names
  | ImportFrom module _ level => [resolve_from_import fqn level module]
  | OtherNode => []
  end.

Definition import_targets (fqn : string) (src : source) : list string :=
  match src with
  | Some nodes => flat_map (node_targets fqn) nodes
  | None => []
  end.

(** The record of a walked file, when its name ends with [.py]. *)
Definition module_of (project_root root : Path) (file : string * source)
    : option (string * ModuleRecord) :=
  if Py.endswith file.1 ".py" then
    match to_fqn project_root (root ++ [file.1]) with
    | Ok fqn =>
        Some (fqn, {| path := root ++ [file.1];
                      imports := import_targets fqn file.2 |})
    | Raise _ => None
    end
  else None.

(** The records of the walked files, in the order of the walk. *)
Definition walked_modules (project_root : Path)
    (w : list (Path * list (string * source))) : list (string * ModuleRecord) :=
  flat_map (λ d, omap (module_of project_root d.1) d.2) w.

(** The walk without the files whose name does not end with [.py]. *)
Definition only_py (w : list (Path * list (string * source)))
    : list (Path * list (string * source)) :=
  map (λ d, (d.1, filter (λ f, Py.endswith f.1 ".py" = true) d.2)) w.

(** The root path is absent or is not a directory. *)
Definition invalid_root (at_root : option fs_node) : Prop :=
  match at_root with
  | None | Some (File _) => True
  | Some (Dir _) | Some UnreadableDir => False
  end.

(** An import of [target] by its absolute name: [import target] or
    [from target import ...]. *)
Definition absolute_import (target : string) (node : ast_node) : Prop :=
  node = Import [target] ∨ ∃ names, node = ImportFrom (Some target) names 0.

(** The record of a file directly under the project root. *)
Definition top_level_module (project_root : Path) (file : string * source)
    : option (string * ModuleRecord) :=
  if Py.endswith file.1 ".py" then
    let fqn := stem file.1 in
    Some (fqn, {| path := project_root ++ [file.1];
                  imports := import_targets fqn file.2 |})
  else None.

(** ** Invariants of the cycle detector *)

(** The edges of a graph and the paths along them. *)
Definition edge (graph : Graph) (v w : string) : Prop := w ∈ successors graph v.

Definition reach (graph : Graph) : string → string → Prop := rtc (edge graph).

(** The discovery index of a visited vertex. *)
Definition idx (s : state) (x : string) : nat := default 0%nat (indices s !! x).

(** What holds of the shared variables between two steps of a traversal;
    [gray] are the vertices whose call of [dfs] is in progress. *)
Record inv (graph : Graph) (gray : list string) (s : state) : Prop := {
  inv_onstack : ∀ x, x ∈ onstack s ↔ x ∈ stack s;
  inv_index : ∀ x i, indices s !! x = Some i → (i < index s)%nat;
  inv_stack_visited : ∀ x, x ∈ stack s → x ∈ dom (indices s);
  inv_stack_nodup : NoDup (stack s);
  inv_sccs_popped : ∀ c x, c ∈ sccs s → x ∈ c → x ∈ dom (indices s) ∧ x ∉ stack s;
  inv_sccs_nodup : NoDup (concat (sccs s));
  inv_sccs_size : ∀ c, c ∈ sccs s → (1 < length c)%nat;
  inv_sccs_conn : ∀ c x y, c ∈ sccs s → x ∈ c → y ∈ c → reach graph x y;
  inv_gray_stack : ∀ x, x ∈ gray → x ∈ stack s;
  inv_stack_reach :
    ∀ x y, x ∈ stack s → y ∈ stack s → (idx s x ≤ idx s y)%nat → reach graph x y;
  inv_stack_gray :
    ∀ y, y ∈ stack s → ∃ x, x ∈ gray ∧ (idx s x ≤ idx s y)%nat ∧ reach graph y x;
}.

(** What a call of [dfs] leaves unchanged. *)
Record frame (s s' : state) : Prop := {
  frame_index : (index s ≤ index s')%nat;
  frame_indices : ∀ x, x ∈ dom (indices s) → indices s' !! x = indices s !! x;
  frame_lowlink : ∀ x, x ∈ dom (indices s) → lowlink s' !! x = lowlink s !! x;
}.

(** The invariant of the loop over the edges of [v], in the call of [dfs]
    on [v] that started in state [s0]. *)
Record loop_inv (graph : Graph) (gray : list string) (v : string)
    (s0 s : state) : Prop := {
  li_inv : inv graph (v :: gray) s;
  li_frame : frame s0 s;
  li_v_index : indices s !! v = Some (index s0);
  li_index : (index s0 < index s)%nat;
  li_stack : ∃ added, stack s = added ++ v :: stack s0
                      ∧ ∀ x, x ∈ added → (index s0 < idx s x)%nat;
  li_low : ∃ lv x, lowlink s !! v = Some lv ∧ x ∈ stack s ∧ idx s x = lv
                   ∧ (lv ≤ index s0)%nat ∧ reach graph v x;
}.

(** What a call of [dfs] on [v] from state [s0] establishes. *)
Record dfs_post (graph : Graph) (gray : list string) (v : string)
    (s0 s' : state) : Prop := {
  post_inv : inv graph gray s';
  post_frame : frame s0 s';
  post_visited : v ∈ dom (indices s');
  post_stack : ∃ added, stack s' = added ++ stack s0
                        ∧ ∀ x, x ∈ added → (index s0 ≤ idx s' x)%nat;
  post_low : ∃ lv, lowlink s' !! v = Some lv
                   ∧ ((lv < index s0)%nat →
                      ∃ x, x ∈ stack s0 ∧ idx s0 x = lv ∧ reach graph v x);
}.

(** The vertices not visited yet. *)
Definition unvisited (graph : Graph) (s : state) : gset string :=
  list_to_set (vertices graph) ∖ dom (indices s).

(** A call of [dfs] with [depth] calls to spare returns and establishes
    [dfs_post], whenever fewer than [depth] vertices are not visited yet. *)
Definition dfs_ok (graph : Graph) (depth : nat) : Prop :=
  ∀ gray v s0,
    inv graph gray s0 →
    v ∉ dom (indices s0) →
    v ∈ vertices graph →
    (∀ x, x ∈ stack s0 → reach graph x v) →
    (size (unvisited graph s0) < depth)%nat →
    ∃ s', dfs depth graph v s0 = Ok s' ∧ dfs_post graph gray v s0 s'.

(** ** Example projects *)

(** [a.py]: [import b]; [b.py]: [from c import f]; [c.py]:
    [from . import a]; [d.py]: no import. *)
Definition project_abc : fs_node :=
  Dir [("a.py", File (Some [Import ["b"]]));
       ("b.py", File (Some [ImportFrom (Some "c") ["f"] 0]));
       ("c.py", File (Some [ImportFrom None ["a"] 1]));
       ("d.py", File (Some []))].

(** [bad.py] cannot be parsed; [ok.py] and [pkg/mod.py] can. *)
Definition project_with_bad_file : fs_node :=
  Dir [("bad.py", File None);
       ("ok.py", File (Some [Import ["os"; "sys"]; OtherNode;
                             ImportFrom (Some "util") ["f"] 1]));
       ("README.md", File None);
       ("pkg", Dir [("mod.py", File (Some [ImportFrom None ["x"] 2]))])].

(** ** Invariants for the completeness of the cycle detector *)

(** What holds of the vertices whose call of [dfs] has returned: their
    successors are visited, the vertices popped from the stack have their
    successors popped, and two different vertices on a common cycle, once
    popped, are in one reported component. *)
Record cinv (graph : Graph) (gray : list string) (s : state) : Prop := {
  cinv_succ :
    ∀ x z, x ∈ dom (indices s) → x ∉ gray → edge graph x z → z ∈ dom (indices s);
  cinv_closed :
    ∀ x z, x ∈ dom (indices s) → x ∉ stack s → edge graph x z → z ∉ stack s;
  cinv_complete :
    ∀ x y, x ≠ y → x ∈ dom (indices s) → x ∉ stack s →
           reach graph x y → reach graph y x →
           ∃ c, c ∈ sccs s ∧ x ∈ c ∧ y ∈ c;
}.

(** In the loop over the edges of [v], with [ws] the successors still to
    come: [lowlink[v]] is below the index of every stack vertex that an
    edge from [v] (among those already followed) or from a vertex above [v]
    leads to. *)
Record cloop (graph : Graph) (gray : list string) (v : string)
    (ws : list string) (s : state) : Prop := {
  cl_inv : cinv graph (v :: gray) s;
  cl_above :
    ∀ lv y z, lowlink s !! v = Some lv → y ∈ stack s → (idx s v < idx s y)%nat →
              edge graph y z → z ∈ stack s → (lv ≤ idx s z)%nat;
  cl_self :
    ∀ lv w, lowlink s !! v = Some lv → edge graph v w →
            w ∈ ws ∨ (w ∈ dom (indices s) ∧ (w ∈ stack s → (lv ≤ idx s w)%nat));
}.

(** What a call of [dfs] on [v] from state [s0] establishes besides
    [dfs_post]. *)
Record cpost (graph : Graph) (gray : list string) (v : string)
    (s0 s' : state) : Prop := {
  cp_inv : cinv graph gray s';
  cp_index : indices s' !! v = Some (index s0);
  cp_low_le : ∀ lv, lowlink s' !! v = Some lv → (lv ≤ index s0)%nat;
  cp_low :
    ∀ lv y z, lowlink s' !! v = Some lv → y ∈ stack s' → (index s0 ≤ idx s' y)%nat →
              edge graph y z → z ∈ stack s' → (lv ≤ idx s' z)%nat;
}.

Definition dfs_complete (graph : Graph) (depth : nat) : Prop :=
  ∀ gray v s0 s',
    inv graph gray s0 →
    cinv graph gray s0 →
    v ∉ dom (indices s0) →
    v ∈ vertices graph →
    (∀ x, x ∈ stack s0 → reach graph x v) →
    (size (unvisited graph s0) < depth)%nat →
    dfs depth graph v s0 = Ok s' →
    cpost graph gray v s0 s'.

(** ** Interactive graph *)

(** [{frozenset(c) for c in cycles}] *)
Definition cycle_sets (cycles : list (list string)) : gset (gset string) :=
  list_to_set (list_to_set <$> cycles).

(** The calls of [add_node] and [add_edge] on the network: [add_node] with
    the node, its [label], its [title] and its [color]. *)
Inductive net_call : Type :=
| add_node (n_id label : string) (title : Path) (color : string)
| add_edge (src dst : string).

(** The color of a node: [gray], or [red] when a cycle has the module. *)
Definition node_color (cycles : gset (gset string)) (module : string) : string :=
  fold_left (λ color (cycle : gset string),
               if decide (module ∈ cycle) then "red" else color)
    (elements cycles) "gray".

(** The loop over [scanner.module_info.items()]. *)
Definition node_calls (cycles : gset (gset string))
    (mi : list (string * ModuleRecord)) : list net_call :=
  (λ item, add_node item.1 item.1 (path item.2) (node_color cycles item.1)) <$> mi.

(** The loop over [graph.items()]: an edge for every target that is a key
    of the module map. *)
Definition edge_calls (mi : list (string * ModuleRecord)) (graph : Graph)
    : list net_call :=
  flat_map (λ item,
    flat_map (λ dst,
      if decide (dst ∈ Dict.keys mi) then [add_edge item.1 dst] else [])
      (elements item.2)) graph.

(** [build_interactive_graph], as the calls of [add_node] and [add_edge]
    that it makes on the network before the network is written. *)
Definition build_interactive_graph (scanner : ImportScanner) : result (list net_call) :=
  let graph := build_graph scanner in
  cycles ← find_cycles scanner;
  let cycles := cycle_sets cycles in
  Ok (node_calls cycles (module_info scanner)
      ++ edge_calls (module_info scanner) graph).

(** ** Tree view and command line *)

(** [str(n)] of a natural number. *)
Definition str_nat (n : nat) : string := NilZero.string_of_uint (Nat.to_uint n).

(** [", ".join(imports) if imports else "-"] *)
Definition imports_str (imports : list string) : string :=
  match imports with
  | [] => "-"
  | _ => Py.join ", " imports
  end.

(** The order of the items of a dictionary with string keys: the keys of
    two items are different, and strings are compared character by
    character. *)
Definition item_le (a b : string * ModuleRecord) : Prop :=
  String.leb a.1 b.1 = true.

#[global] Instance item_le_dec : RelDecision item_le :=
  λ a b, decide (String.leb a.1 b.1 = true).

(** [sorted(module_info.items())] *)
Definition sorted_items (mi : list (string * ModuleRecord))
    : list (string * ModuleRecord) :=
  merge_sort item_le mi.

(** A row of the tree: its three columns, and whether it is shown in bold
    on a dark red background. *)
Record tree_item : Type := {
  columns : list string;
  highlighted : bool;
}.

(** [any(module in cycle for cycle in cycles)] *)
Definition in_cycle (cycles : gset (gset string)) (module : string) : bool :=
  existsb (λ cycle : gset string, bool_decide (module ∈ cycle)) (elements cycles).

(** [populate_tree]: the rows of the tree and the message of the status
    bar. *)
Definition populate_tree (scanner : ImportScanner) : result (list tree_item * string) :=
  cycles ← find_cycles scanner;
  let cycles := cycle_sets cycles in
  Ok ((λ item,
         {| columns := [item.1; str_nat (length (imports item.2));
                        imports_str (imports item.2)];
            highlighted := in_cycle cycles item.1 |})
        <$> sorted_items (module_info scanner),
      "Scanned " +:+ str_nat (length (module_info scanner))
        +:+ " modules | Cycles: " +:+ str_nat (size cycles)).




(** [rescan]: the scan, then the tree and the graph of the scanner; of
    [generate_graph], the calls of [build_interactive_graph]. *)
Definition rescan (at_root : option fs_node) (scanner : ImportScanner)
    : result (ImportScanner * (list tree_item * string) * list net_call) :=
  scanner ← scan at_root scanner;
  tree ← populate_tree scanner;
  calls ← build_interactive_graph scanner;
  Ok (scanner, tree, calls).

(** * Properties *)

(** Enumerates the orders in which four records can be listed. *)
Ltac each_order Hperm :=
  apply permutations_Permutation in Hperm;
  vm_compute in Hperm;
  repeat (apply elem_of_cons in Hperm as [->|Hperm]);
  [..|by apply elem_of_nil in Hperm].

(** ** Resolver *)

(** A string without the separator is its own single segment. *)
Lemma split_no_sep c s : Py.rfind c s = None → Py.split c s = [s].
Proof.
  induction s as [|a s IH]; simpl; [done|].
  destruct (Py.rfind c s); [done|].
  destruct (Ascii.eqb a c); [done|].
  intros _. by rewrite IH.
Qed.

Lemma slice_to_neg {A} (l : list A) (stop : Z) :
  stop < 0 → Py.slice_to l stop = drop_trailing (Z.to_nat (- stop)) l.
Proof.
  intros Hneg. unfold Py.slice_to, drop_trailing.
  destruct (Z.ltb_spec stop 0); [|lia].
  rewrite drop_reverse, reverse_involutive. f_equal. lia.
Qed.

Lemma drop_trailing_1 {A} (l : list A) : drop_trailing 1 l = removelast l.
Proof.
  unfold drop_trailing.
  induction l as [|x l IH] using rev_ind; [done|].
  rewrite reverse_snoc, skipn_cons, drop_0, reverse_involutive.
  by rewrite removelast_last.
Qed.

Lemma drop_trailing_all {A} (n : nat) (l : list A) :
  (length l ≤ n)%nat → drop_trailing n l = [].
Proof.
  intros Hn. unfold drop_trailing.
  rewrite drop_ge; [done|]. by rewrite length_reverse.
Qed.

(** The package parts before the [level] adjustment. *)
Lemma pkg_parts_package_of current_fqn :
  Py.slice_to (Py.split "." current_fqn) (-1) = package_of current_fqn.
Proof. rewrite slice_to_neg by lia. apply drop_trailing_1. Qed.

Lemma resolve_from_import_join current_fqn level module :
  resolve_from_import current_fqn level module
  = Py.join "." (pkg_parts current_fqn level ++ module_part module).
Proof.
  unfold resolve_from_import, module_part.
  destruct module as [m|]; [|by rewrite app_nil_r].
  destruct (Py.truthy (Some m)); [done|by rewrite app_nil_r].
Qed.

Lemma pkg_parts_top_level current_fqn level :
  Py.rfind "." current_fqn = None → pkg_parts current_fqn level = [].
Proof.
  intros Hdot. unfold pkg_parts. rewrite (split_no_sep _ _ Hdot).
  assert (Hnil : ∀ k, Py.slice_to (@nil string) k = []).
  { intros k. unfold Py.slice_to. by destruct (k <? 0); rewrite take_nil. }
  change (Py.slice_to [current_fqn] (-1)) with (@nil string).
  by repeat case_match.
Qed.

Example resolve_from_import_sibling :
  resolve_from_import "pkg.sub.mod" 1 (Some "sibling") = "pkg.sub.sibling".
Proof. reflexivity. Qed.

Example resolve_from_import_parent :
  resolve_from_import "pkg.sub.mod" 2 None = "pkg".
Proof. reflexivity. Qed.

Example to_fqn_nested :
  to_fqn ["/"; "proj"] ["/"; "proj"; "pkg"; "mod.py"] = Ok "pkg.mod"
  ∧ to_fqn ["/"; "proj"] ["/"; "other"; "mod.py"] = Raise ValueError.
Proof. split; reflexivity. Qed.

(** C2, at a module inside a package: the absolute import [from x.y import
    ...] (level 0) in module [pkg.mod] is resolved to ["pkg.x.y"], not to
    ["x.y"]: the package parts of the importing module are prepended at
    level 0 as they are at level 1. *)
Theorem resolve_from_import_level0_prefixed :
  resolve_from_import "pkg.mod" 0 (Some "x.y") = "pkg.x.y"
  ∧ resolve_from_import "pkg.mod" 0 (Some "x.y") ≠ "x.y"
  ∧ resolve_from_import "pkg.mod" 0 (Some "x.y")
    = resolve_from_import "pkg.mod" 1 (Some "x.y").
Proof. by split_and!. Qed.

(** Level 0 returns the module name verbatim only in a top-level module
    (one whose name has no dot). *)
Lemma resolve_from_import_level0_top_level current_fqn m :
  Py.rfind "." current_fqn = None →
  m ≠ "" →
  resolve_from_import current_fqn 0 (Some m) = m.
Proof.
  intros Hdot Hm. rewrite resolve_from_import_join, pkg_parts_top_level by done.
  simpl. by destruct m.
Qed.

(** C8: for every importing module and every level above 1, the package
    parts used are those of the importing module with [level - 1] trailing
    segments dropped; they are empty when [level - 1] is the number of
    package parts or more, and the function returns a name in every case;
    [resolve_from_import "top.mod" 2 "other"] is ["other"]. *)
Theorem resolve_from_import_clamped current_fqn level module :
  1 < level →
  pkg_parts current_fqn level
    = drop_trailing (Z.to_nat (level - 1)) (package_of current_fqn)
  ∧ (Z.of_nat (length (package_of current_fqn)) ≤ level - 1 →
     pkg_parts current_fqn level = [])
  ∧ resolve_from_import current_fqn level module
    = Py.join "."
        (drop_trailing (Z.to_nat (level - 1)) (package_of current_fqn)
         ++ module_part module)
  ∧ resolve_from_import "top.mod" 2 (Some "other") = "other".
Proof.
  intros Hlevel.
  assert (Hparts : pkg_parts current_fqn level
    = drop_trailing (Z.to_nat (level - 1)) (package_of current_fqn)).
  { unfold pkg_parts. rewrite pkg_parts_package_of.
    destruct (Z.eqb_spec level 0); [lia|].
    destruct (Z.ltb_spec 1 level); [|lia].
    rewrite slice_to_neg by lia. f_equal. lia. }
  split_and!; [done| | |done].
  - intros Hlen. rewrite Hparts. apply drop_trailing_all. lia.
  - by rewrite resolve_from_import_join, Hparts.
Qed.

(** The theorem at levels 2 and 5. *)
Lemma resolve_from_import_clamped_witness :
  pkg_parts "pkg.sub.mod" 2 = ["pkg"]
  ∧ pkg_parts "top.mod" 5 = []
  ∧ resolve_from_import "pkg.sub.mod" 2 (Some "other") = "pkg.other".
Proof.
  destruct (resolve_from_import_clamped "pkg.sub.mod" 2 (Some "other"))
    as (H1 & _ & H3 & _); [lia|].
  destruct (resolve_from_import_clamped "top.mod" 5 None)
    as (_ & H2 & _); [lia|].
  split_and!.
  - rewrite H1. reflexivity.
  - apply H2. vm_compute. discriminate.
  - rewrite H3. reflexivity.
Defined.

(** C10: when the module name is absent or empty and the package parts are
    empty, the resolved name is the empty string; this is the case for
    every importing module without a dot in its name, at every level, so
    that [from . import x] in a top-level module appends [""] to the
    imports of its record. *)
Theorem resolve_from_import_empty current_fqn level module :
  Py.truthy module = false →
  (pkg_parts current_fqn level = [] →
   resolve_from_import current_fqn level module = "")
  ∧ (Py.rfind "." current_fqn = None →
     pkg_parts current_fqn level = []
     ∧ resolve_from_import current_fqn level module = ""
     ∧ ∀ names mi r,
         Dict.get mi current_fqn = Some r →
         scan_node current_fqn mi (ImportFrom module names level)
         = Ok (Dict.set current_fqn
                 {| path := path r; imports := imports r ++ [""] |} mi)).
Proof.
  intros Hmod.
  assert (Hpart : module_part module = []).
  { unfold module_part. destruct module; [by rewrite Hmod|done]. }
  assert (Hempty : pkg_parts current_fqn level = [] →
                   resolve_from_import current_fqn level module = "").
  { intros Hpkg. by rewrite resolve_from_import_join, Hpkg, Hpart. }
  split; [done|].
  intros Hdot. pose proof (pkg_parts_top_level _ level Hdot) as Hpkg.
  split_and!; [done|by apply Hempty|].
  intros names mi r Hr. simpl. unfold append_import.
  by rewrite Hr, (Hempty Hpkg).
Qed.

(** The theorem at [from . import a] in the top-level module [c]. *)
Lemma resolve_from_import_empty_witness :
  resolve_from_import "c" 1 None = ""
  ∧ scan_node "c" [("c", {| path := ["c.py"]; imports := [] |})]
      (ImportFrom None ["a"] 1)
    = Ok [("c", {| path := ["c.py"]; imports := [""] |})].
Proof.
  destruct (resolve_from_import_empty "c" 1 None) as [_ H]; [reflexivity|].
  destruct H as (_ & H1 & H2); [reflexivity|].
  split; [exact H1|].
  apply (H2 ["a"] [("c", {| path := ["c.py"]; imports := [] |})]
            {| path := ["c.py"]; imports := [] |}).
  reflexivity.
Defined.

(** ** Dictionaries *)

Section DictFacts.
Context {V : Type}.
Implicit Types (d l : list (string * V)) (k : string) (v : V).

Lemma dict_get_set d k v k' :
  Dict.get (Dict.set k v d) k' = if decide (k = k') then Some v else Dict.get d k'.
Proof.
  induction d as [|[k0 v0] d IH]; simpl.
  - by repeat case_decide.
  - repeat (case_decide; simpl; simplify_eq); try done.
Qed.

Lemma dict_get_set_eq d k v : Dict.get (Dict.set k v d) k = Some v.
Proof. rewrite dict_get_set. by case_decide. Qed.

Lemma dict_set_set d k v v' : Dict.set k v' (Dict.set k v d) = Dict.set k v' d.
Proof.
  induction d as [|[k0 v0] d IH]; simpl.
  - by case_decide.
  - repeat (case_decide; simpl; simplify_eq); try done. by rewrite IH.
Qed.

Lemma dict_elem_of_keys d k : k ∈ Dict.keys d ↔ is_Some (Dict.get d k).
Proof.
  unfold Dict.keys. induction d as [|[k0 v0] d IH]; simpl.
  - rewrite elem_of_nil. split; [done|]. by intros [? ?].
  - rewrite elem_of_cons. case_decide; simplify_eq.
    + split; eauto.
    + rewrite <- IH. naive_solver.
Qed.

Lemma dict_get_None d k : k ∉ Dict.keys d ↔ Dict.get d k = None.
Proof. rewrite dict_elem_of_keys. by rewrite eq_None_not_Some. Qed.

(** After [update], the last item of a key is the one read back. *)
Lemma dict_update_snoc l d k v :
  Dict.update (l ++ [(k, v)]) d = Dict.set k v (Dict.update l d).
Proof. unfold Dict.update. by rewrite fold_left_app. Qed.

Lemma dict_update_app l1 l2 d :
  Dict.update (l1 ++ l2) d = Dict.update l2 (Dict.update l1 d).
Proof. unfold Dict.update. by rewrite fold_left_app. Qed.

Lemma dict_update_get_Some l k v :
  Dict.get (Dict.update l []) k = Some v → (k, v) ∈ l.
Proof.
  induction l as [|[k0 v0] l IH] using rev_ind; [done|].
  rewrite dict_update_snoc, dict_get_set, elem_of_app, list_elem_of_singleton.
  case_decide; naive_solver.
Qed.

Lemma dict_update_keys l k :
  k ∈ Dict.keys (Dict.update l []) ↔ k ∈ l.*1.
Proof.
  induction l as [|[k0 v0] l IH] using rev_ind; [done|].
  rewrite dict_elem_of_keys, dict_update_snoc, dict_get_set, fmap_app, elem_of_app.
  rewrite <- IH, dict_elem_of_keys. simpl. rewrite list_elem_of_singleton.
  case_decide; naive_solver.
Qed.

Lemma dict_update_get_NoDup l k v :
  NoDup l.*1 → (k, v) ∈ l → Dict.get (Dict.update l []) k = Some v.
Proof.
  induction l as [|[k0 v0] l IH] using rev_ind; [by intros _ ?%elem_of_nil|].
  rewrite fmap_app, NoDup_app, elem_of_app, list_elem_of_singleton.
  intros (Hl & Hk0 & _) Hin.
  rewrite dict_update_snoc, dict_get_set. case_decide as Hk.
  - destruct Hin as [Hin|?]; [|by simplify_eq]. subst k0.
    destruct (Hk0 k); [|by left]. apply list_elem_of_fmap. by exists (k, v).
  - destruct Hin as [Hin|?]; [by apply IH|by simplify_eq].
Qed.
End DictFacts.

(** ** Scanner *)

Lemma relative_to_app root rel : relative_to (root ++ rel) root = Ok rel.
Proof. induction root as [|r root IH]; simpl; [done|]. by case_decide. Qed.

Lemma with_suffix_empty_snoc dirs name :
  with_suffix_empty (dirs ++ [name]) = Ok (dirs ++ [stem name]).
Proof. unfold with_suffix_empty. by rewrite reverse_snoc, reverse_involutive. Qed.

(** The FQN of a file under the root: its directories and the stem of its
    name, joined by dots. *)
Lemma to_fqn_under_root root dirs name :
  to_fqn root (root ++ dirs ++ [name]) = Ok (Py.join "." (dirs ++ [stem name])).
Proof.
  unfold to_fqn. rewrite relative_to_app. simpl.
  by rewrite with_suffix_empty_snoc.
Qed.

(** Induction over a file tree, with the hypothesis for every entry of a
    directory. *)
Lemma fs_node_nested_ind (P : fs_node → Prop) :
  (∀ src, P (File src)) →
  (∀ entries, Forall (λ e, P e.2) entries → P (Dir entries)) →
  P UnreadableDir →
  ∀ n, P n.
Proof.
  intros HF HD HU. fix IH 1. intros [src|entries|]; [apply HF| |apply HU].
  apply HD. induction entries as [|[name child] es IHes]; constructor.
  - apply IH.
  - apply IHes.
Qed.

(** Every directory that [os.walk] yields is [top] or below it. *)
Lemma os_walk_prefix n : ∀ top d, d ∈ os_walk top n → top `prefix_of` d.1.
Proof.
  induction n as [src|entries IH|] using fs_node_nested_ind; intros top d; simpl;
    [by intros ?%elem_of_nil| |by intros ?%elem_of_nil].
  rewrite elem_of_cons. intros [->|Hd]; [done|].
  induction IH as [|[name child] es Hchild _ IHes]; [by apply elem_of_nil in Hd|].
  simpl in Hchild.
  assert (d ∈ os_walk (top ++ [name]) child ∨
          d ∈ (fix walk_dirs (es : list (string * fs_node)) :=
                 match es with
                 | [] => []
                 | (name, child) :: es' =>
                     match child with
                     | File _ => walk_dirs es'
                     | _ => os_walk (top ++ [name]) child ++ walk_dirs es'
                     end
                 end) es) as [Hd'|Hd'].
  { destruct child; [by right|by apply elem_of_app in Hd|by apply elem_of_app in Hd]. }
  - etrans; [|by apply Hchild]. by apply prefix_app_r.
  - by apply IHes.
Qed.

Lemma walk_prefix top at_root d : d ∈ walk top at_root → top `prefix_of` d.1.
Proof.
  destruct at_root as [n|]; simpl; [apply os_walk_prefix|by intros ?%elem_of_nil].
Qed.

Section ScanFile.
Context (fqn : string).
Implicit Types (mi : list (string * ModuleRecord)).

Lemma append_import_spec x mi p acc :
  append_import fqn (Dict.set fqn {| path := p; imports := acc |} mi) x
  = Ok (Dict.set fqn {| path := p; imports := acc ++ [x] |} mi).
Proof.
  unfold append_import. rewrite dict_get_set_eq. simpl. by rewrite dict_set_set.
Qed.

Lemma append_imports_spec names mi p acc :
  for_each (append_import fqn) names (Dict.set fqn {| path := p; imports := acc |} mi)
  = Ok (Dict.set fqn {| path := p; imports := acc ++ names |} mi).
Proof.
  revert acc. induction names as [|x names IH]; intros acc; simpl.
  - by rewrite app_nil_r.
  - rewrite append_import_spec. simpl. rewrite IH. by rewrite <- app_assoc.
Qed.

Lemma scan_node_spec node mi p acc :
  scan_node fqn (Dict.set fqn {| path := p; imports := acc |} mi) node
  = Ok (Dict.set fqn {| path := p; imports := acc ++ node_targets fqn node |} mi).
Proof.
  destruct node as [names|module names level|]; simpl.
  - apply append_imports_spec.
  - apply append_import_spec.
  - by rewrite app_nil_r.
Qed.

(** [_scan_file] leaves in the record of [fqn] the import targets of the
    file, and the empty list when the file cannot be read or parsed. *)
Lemma _scan_file_spec src mi p :
  _scan_file src fqn (Dict.set fqn {| path := p; imports := [] |} mi)
  = Ok (Dict.set fqn {| path := p; imports := import_targets fqn src |} mi).
Proof.
  destruct src as [nodes|]; simpl; [|done].
  change (flat_map (node_targets fqn) nodes)
    with ([] ++ flat_map (node_targets fqn) nodes).
  generalize (@nil string) as acc.
  induction nodes as [|node nodes IH]; intros acc; simpl.
  - by rewrite app_nil_r.
  - rewrite scan_node_spec. simpl. rewrite IH. by rewrite <- app_assoc.
Qed.
End ScanFile.

Lemma scan_entry_spec project_root root mi file :
  project_root `prefix_of` root →
  scan_entry project_root root mi file
  = Ok (Dict.update (option_list (module_of project_root root file)) mi).
Proof.
  intros [rel ->]. unfold scan_entry, module_of.
  destruct (Py.endswith file.1 ".py"); [|done].
  rewrite <- app_assoc, to_fqn_under_root. simpl.
  by rewrite _scan_file_spec.
Qed.

Lemma scan_dir_spec project_root mi d :
  project_root `prefix_of` d.1 →
  scan_dir project_root mi d
  = Ok (Dict.update (omap (module_of project_root d.1) d.2) mi).
Proof.
  destruct d as [root files]. simpl. intros Hpre. unfold scan_dir. simpl. revert mi.
  induction files as [|file files IH]; intros mi; simpl; [done|].
  rewrite scan_entry_spec by done. simpl. rewrite IH.
  by destruct (module_of project_root root file).
Qed.

(** The loops of [scan] never raise, and the module map they build is the
    dictionary of the records of the walked [.py] files. *)
Lemma scan_loops_spec project_root w mi :
  Forall (λ d, project_root `prefix_of` d.1) w →
  for_each (scan_dir project_root) w mi
  = Ok (Dict.update (walked_modules project_root w) mi).
Proof.
  intros Hw. revert mi. induction Hw as [|d w Hd _ IH]; intros mi; simpl; [done|].
  rewrite scan_dir_spec by done. simpl. rewrite IH.
  unfold walked_modules. simpl. by rewrite dict_update_app.
Qed.

Lemma scan_spec at_root self :
  scan at_root self
  = Ok {| project_root := project_root self;
          module_info :=
            Dict.update
              (walked_modules (project_root self) (walk (project_root self) at_root))
              [] |}.
Proof.
  unfold scan, scan_walk. rewrite scan_loops_spec; [done|].
  apply Forall_forall. intros d. apply walk_prefix.
Qed.

Lemma elem_of_flat_map {A B} (f : A → list B) (l : list A) (y : B) :
  y ∈ flat_map f l ↔ ∃ x, x ∈ l ∧ y ∈ f x.
Proof.
  rewrite list_elem_of_In, in_flat_map.
  by setoid_rewrite list_elem_of_In.
Qed.

(** The records of the walk are those of its [.py] files. *)
Lemma elem_of_walked_modules project_root w k r :
  (k, r) ∈ walked_modules project_root w ↔
  ∃ d file, d ∈ w ∧ file ∈ d.2 ∧ Py.endswith file.1 ".py" = true
    ∧ to_fqn project_root (d.1 ++ [file.1]) = Ok k
    ∧ r = {| path := d.1 ++ [file.1]; imports := import_targets k file.2 |}.
Proof.
  unfold walked_modules. rewrite elem_of_flat_map.
  setoid_rewrite list_elem_of_omap. unfold module_of. split.
  - intros (d & Hd & file & Hfile & Hmod). exists d, file.
    destruct (Py.endswith file.1 ".py"); [|done].
    destruct (to_fqn project_root (d.1 ++ [file.1])) eqn:Hfqn; by simplify_eq.
  - intros (d & file & Hd & Hfile & Hpy & Hfqn & ->). exists d. split; [done|].
    exists file. by rewrite Hpy, Hfqn.
Qed.

Lemma walked_modules_only_py project_root w :
  walked_modules project_root (only_py w) = walked_modules project_root w.
Proof.
  unfold walked_modules, only_py. induction w as [|[root files] w IH]; simpl; [done|].
  rewrite IH. f_equal. clear IH.
  induction files as [|file files IH]; [done|].
  destruct (Py.endswith file.1 ".py") eqn:Hpy.
  - rewrite filter_cons_True by done. simpl.
    destruct (module_of project_root root file); [f_equal|]; exact IH.
  - rewrite filter_cons_False by by rewrite Hpy. rewrite IH.
    assert (Hnone : module_of project_root root file = None).
    { unfold module_of. by rewrite Hpy. }
    simpl. by rewrite Hnone.
Qed.

Lemma only_py_prefix project_root w :
  Forall (λ d, project_root `prefix_of` d.1) w →
  Forall (λ d, project_root `prefix_of` d.1) (only_py w).
Proof. unfold only_py. intros Hw. by apply Forall_fmap. Qed.

(** C9: a scan never raises; at the turn of a walked file, the loop body
    stores the record of the file under its FQN when the name of the file
    ends with [.py], and leaves the module map as it is otherwise; in the
    module map of the scan, every walked file whose name ends with [.py]
    has an entry under its FQN, and every entry is the entry of a walked
    file whose name ends with [.py] (its key is the FQN of that file, its
    path the path of that file, its imports the import targets of that
    file); and the files with another name change nothing: the walk
    without them gives the same module map. *)
Theorem scan_records_exactly_py_files at_root self :
  ∃ sc, scan at_root self = Ok sc
  ∧ (∀ d file mi,
       d ∈ walk (project_root self) at_root → file ∈ d.2 →
       ∃ mi', scan_entry (project_root self) d.1 mi file = Ok mi'
         ∧ if Py.endswith file.1 ".py"
           then ∃ fqn, to_fqn (project_root self) (d.1 ++ [file.1]) = Ok fqn
                  ∧ Dict.get mi' fqn
                    = Some {| path := d.1 ++ [file.1];
                              imports := import_targets fqn file.2 |}
           else mi' = mi)
  ∧ (∀ d file,
       d ∈ walk (project_root self) at_root → file ∈ d.2 →
       Py.endswith file.1 ".py" = true →
       ∃ fqn, to_fqn (project_root self) (d.1 ++ [file.1]) = Ok fqn
              ∧ fqn ∈ Dict.keys (module_info sc))
  ∧ (∀ k r,
       Dict.get (module_info sc) k = Some r →
       ∃ d file,
         d ∈ walk (project_root self) at_root ∧ file ∈ d.2
         ∧ Py.endswith file.1 ".py" = true
         ∧ to_fqn (project_root self) (d.1 ++ [file.1]) = Ok k
         ∧ path r = d.1 ++ [file.1]
         ∧ imports r = import_targets k file.2)
  ∧ scan_walk (project_root self) (walk (project_root self) at_root)
    = scan_walk (project_root self) (only_py (walk (project_root self) at_root)).
Proof.
  eexists. split; [apply scan_spec|]. simpl.
  assert (Hpre : Forall (λ d, project_root self `prefix_of` d.1)
                   (walk (project_root self) at_root)).
  { apply Forall_forall. intros d. apply walk_prefix. }
  split_and!.
  - intros d file mi Hd Hfile. eexists.
    split; [by apply scan_entry_spec, walk_prefix with at_root|].
    destruct (walk_prefix _ _ _ Hd) as [rel Hrel]. unfold module_of.
    destruct (Py.endswith file.1 ".py"); [|done].
    rewrite Hrel, <- app_assoc, to_fqn_under_root. eexists. split; [done|].
    apply dict_get_set_eq.
  - intros d file Hd Hfile Hpy.
    destruct (walk_prefix _ _ _ Hd) as [rel Hrel].
    exists (Py.join "." (rel ++ [stem file.1])).
    assert (Hfqn : to_fqn (project_root self) (d.1 ++ [file.1])
                   = Ok (Py.join "." (rel ++ [stem file.1]))).
    { by rewrite Hrel, <- app_assoc, to_fqn_under_root. }
    split; [done|]. apply dict_update_keys, list_elem_of_fmap.
    eexists (_, _). split; [done|].
    apply elem_of_walked_modules. by exists d, file.
  - intros k r Hget. apply dict_update_get_Some in Hget.
    apply elem_of_walked_modules in Hget as (d & file & ? & ? & ? & ? & ->).
    by exists d, file.
  - unfold scan_walk.
    rewrite !scan_loops_spec by (done || by apply only_py_prefix).
    by rewrite walked_modules_only_py.
Qed.

(** C3, as the program has it: in every scan whose [.py] files have
    pairwise distinct FQNs, the scan does not raise, a file that cannot be
    parsed has an entry with its path and an empty list of imports, and
    every file that can be parsed has an entry with its path and its
    import targets in order. *)
Theorem scan_parse_failure_keeps_entry at_root self :
  NoDup (walked_modules (project_root self) (walk (project_root self) at_root)).*1 →
  ∃ sc, scan at_root self = Ok sc
  ∧ ∀ d file,
      d ∈ walk (project_root self) at_root → file ∈ d.2 →
      Py.endswith file.1 ".py" = true →
      ∃ fqn, to_fqn (project_root self) (d.1 ++ [file.1]) = Ok fqn
        ∧ (file.2 = None →
           Dict.get (module_info sc) fqn
           = Some {| path := d.1 ++ [file.1]; imports := [] |})
        ∧ (∀ nodes, file.2 = Some nodes →
           Dict.get (module_info sc) fqn
           = Some {| path := d.1 ++ [file.1];
                     imports := flat_map (node_targets fqn) nodes |}).
Proof.
  intros Hnodup. eexists. split; [apply scan_spec|]. simpl.
  intros d file Hd Hfile Hpy.
  destruct (walk_prefix _ _ _ Hd) as [rel Hrel].
  exists (Py.join "." (rel ++ [stem file.1])).
  assert (Hfqn : to_fqn (project_root self) (d.1 ++ [file.1])
                 = Ok (Py.join "." (rel ++ [stem file.1]))).
  { by rewrite Hrel, <- app_assoc, to_fqn_under_root. }
  split; [done|].
  assert (Hget : Dict.get
            (Dict.update
               (walked_modules (project_root self) (walk (project_root self) at_root)) [])
            (Py.join "." (rel ++ [stem file.1]))
          = Some {| path := d.1 ++ [file.1];
                    imports := import_targets
                      (Py.join "." (rel ++ [stem file.1])) file.2 |}).
  { apply dict_update_get_NoDup; [done|].
    apply elem_of_walked_modules. by exists d, file. }
  split.
  - intros Hsrc. by rewrite Hget, Hsrc.
  - intros nodes Hsrc. by rewrite Hget, Hsrc.
Qed.

(** The theorem on [project_with_bad_file]. *)
Lemma scan_parse_failure_keeps_entry_witness :
  ∃ sc, scan (Some project_with_bad_file) (new_scanner ["/"; "proj"]) = Ok sc
    ∧ Dict.get (module_info sc) "bad"
      = Some {| path := ["/"; "proj"; "bad.py"]; imports := [] |}
    ∧ Dict.get (module_info sc) "ok"
      = Some {| path := ["/"; "proj"; "ok.py"]; imports := ["os"; "sys"; "util"] |}.
Proof.
  destruct (scan_parse_failure_keeps_entry (Some project_with_bad_file)
              (new_scanner ["/"; "proj"])) as (sc & Hsc & Hfiles).
  { vm_compute. repeat (constructor; [set_solver|]). constructor. }
  pose (ok := Some [Import ["os"; "sys"]; OtherNode; ImportFrom (Some "util") ["f"] 1]).
  pose (d := (["/"; "proj"], [("bad.py", None); ("ok.py", ok); ("README.md", None)])).
  exists sc. split; [exact Hsc|]. split.
  - destruct (Hfiles d ("bad.py", None)) as (fqn & Hfqn & Hbad & _);
      [left|left|reflexivity|].
    vm_compute in Hfqn. injection Hfqn as <-. exact (Hbad eq_refl).
  - destruct (Hfiles d ("ok.py", ok)) as (fqn & Hfqn & _ & Hok);
      [left|right; left|reflexivity|].
    vm_compute in Hfqn. injection Hfqn as <-. exact (Hok _ eq_refl).
Defined.

(** C3 fails on [project_with_bad_file]: [bad.py] cannot be parsed and yet
    has an entry in the module map, with an empty list of imports. *)
Lemma scan_parse_failure_entry_present :
  ∃ sc, scan (Some project_with_bad_file) (new_scanner ["/"; "proj"]) = Ok sc
    ∧ module_info sc
      = [("bad", {| path := ["/"; "proj"; "bad.py"]; imports := [] |});
         ("ok", {| path := ["/"; "proj"; "ok.py"];
                   imports := ["os"; "sys"; "util"] |});
         ("pkg.mod", {| path := ["/"; "proj"; "pkg"; "mod.py"]; imports := [""] |})]
    ∧ "bad" ∈ Dict.keys (module_info sc).
Proof. eexists. split; [reflexivity|]. split; [reflexivity|]. by left. Qed.

(** C4, as the program has it: when the root path is absent or is not a
    directory, the scan does not raise and leaves the module map empty. *)
Theorem scan_invalid_root_empty at_root self :
  invalid_root at_root →
  scan at_root self = Ok {| project_root := project_root self; module_info := [] |}.
Proof.
  intros Hroot. rewrite scan_spec.
  by destruct at_root as [[src|entries|]|].
Qed.

(** The theorem at an absent root. *)
Lemma scan_invalid_root_empty_witness :
  scan None (new_scanner ["/"; "missing"]) = Ok (new_scanner ["/"; "missing"]).
Proof. apply (scan_invalid_root_empty None (new_scanner ["/"; "missing"])). exact I. Defined.

(** C4 fails for a root that is a file: the scan returns normally, with an
    empty module map, and raises nothing. *)
Lemma scan_invalid_root_no_error :
  invalid_root (Some (File (Some [Import ["os"]])))
  ∧ scan (Some (File (Some [Import ["os"]]))) (new_scanner ["/"; "proj"; "main.py"])
    = Ok (new_scanner ["/"; "proj"; "main.py"])
  ∧ invalid_root None
  ∧ scan None (new_scanner ["/"; "proj"]) = Ok (new_scanner ["/"; "proj"]).
Proof. by split_and!. Qed.

(** ** End to end *)

Lemma walked_modules_top_level project_root files :
  walked_modules project_root [(project_root, files)]
  = omap (top_level_module project_root) files.
Proof.
  unfold walked_modules. simpl. rewrite app_nil_r.
  apply list_omap_ext, Forall_Forall2_diag, Forall_forall.
  intros file _. unfold module_of, top_level_module.
  destruct (Py.endswith file.1 ".py"); [|done].
  by rewrite (to_fqn_under_root project_root [] file.1 : to_fqn _ (_ ++ [_]) = _).
Qed.

(** A directory that holds only files is walked alone. *)
Lemma os_walk_files_only top entries :
  Forall (λ e, ∃ src, e.2 = File src) entries →
  os_walk top (Dir entries) = [(top, nondirs entries)].
Proof.
  intros Hfiles. simpl. f_equal.
  induction Hfiles as [|[name child] es [src Hsrc] _ IH]; [done|].
  simpl in Hsrc. by subst child.
Qed.

(** The scan of a project whose root directory holds only files. *)
Lemma scan_top_level root entries :
  Forall (λ e, ∃ src, e.2 = File src) entries →
  scan (Some (Dir entries)) (new_scanner root)
  = Ok {| project_root := root;
          module_info :=
            Dict.update (omap (top_level_module root) (nondirs entries)) [] |}.
Proof.
  intros Hfiles. rewrite scan_spec. cbn [project_root new_scanner walk].
  by rewrite os_walk_files_only, walked_modules_top_level.
Qed.

(** What [find_cycles] works on: the graph of a module map. *)
Lemma find_cycles_module_info root mi :
  find_cycles {| project_root := root; module_info := mi |}
  = strongly_connected_components
      (build_graph {| project_root := root; module_info := mi |}).
Proof. done. Qed.

(** C1, as the program has it: in a project of the top-level modules [a],
    [b], [c] and [d], listed in any order, where [a] imports [b] and [b]
    imports [c] by absolute name, [c] holds [from . import ...] (level 1,
    no module name) and [d] imports nothing, the graph built is a→{b},
    b→{c}, c→{""}, d→{} and [find_cycles] returns no cycle. *)
Theorem end_to_end_relative_import_no_cycle
    root import_b import_c names entries :
  absolute_import "b" import_b →
  absolute_import "c" import_c →
  entries ≡ₚ [("a.py", File (Some [import_b]));
              ("b.py", File (Some [import_c]));
              ("c.py", File (Some [ImportFrom None names 1]));
              ("d.py", File (Some []))] →
  ∃ sc, scan (Some (Dir entries)) (new_scanner root) = Ok sc
    ∧ Dict.keys (build_graph sc) ≡ₚ ["a"; "b"; "c"; "d"]
    ∧ Dict.get (build_graph sc) "a" = Some {["b"]}
    ∧ Dict.get (build_graph sc) "b" = Some {["c"]}
    ∧ Dict.get (build_graph sc) "c" = Some {[""]}
    ∧ Dict.get (build_graph sc) "d" = Some ∅
    ∧ successors (build_graph sc) "d" = []
    ∧ find_cycles sc = Ok [].
Proof.
  intros Hb Hc Hperm.
  assert (Hfiles : Forall (λ e : string * fs_node, ∃ src, e.2 = File src) entries).
  { rewrite Hperm. repeat constructor; by eexists. }
  assert (Hrecs :
    [("a", {| path := root ++ ["a.py"]; imports := ["b"] |});
     ("b", {| path := root ++ ["b.py"]; imports := ["c"] |});
     ("c", {| path := root ++ ["c.py"]; imports := [""] |});
     ("d", {| path := root ++ ["d.py"]; imports := [] |})]
    ≡ₚ omap (top_level_module root) (nondirs entries)).
  { unfold nondirs. rewrite Hperm.
    by destruct Hb as [->|[? ->]], Hc as [->|[? ->]]. }
  eexists. split; [by apply scan_top_level|].
  revert Hrecs. generalize (omap (top_level_module root) (nondirs entries)).
  intros recs Hrecs. each_order Hrecs.
  all: split; [apply permutations_Permutation, (bool_decide_unpack _);
               vm_compute; exact I|].
  all: repeat apply conj; vm_compute; exact eq_refl.
Qed.

(** The theorem on [project_abc]. *)
Lemma end_to_end_relative_import_no_cycle_witness :
  ∃ sc, scan (Some project_abc) (new_scanner ["/"; "proj"]) = Ok sc
    ∧ Dict.get (build_graph sc) "c" = Some {[""]}
    ∧ find_cycles sc = Ok [].
Proof.
  destruct (end_to_end_relative_import_no_cycle ["/"; "proj"]
              (Import ["b"]) (ImportFrom (Some "c") ["f"] 0) ["a"]
              [("a.py", File (Some [Import ["b"]]));
               ("b.py", File (Some [ImportFrom (Some "c") ["f"] 0]));
               ("c.py", File (Some [ImportFrom None ["a"] 1]));
               ("d.py", File (Some []))])
    as (sc & Hsc & _ & _ & _ & Hc & _ & _ & Hcycles).
  - by left.
  - right. by eexists.
  - reflexivity.
  - exists sc. split; [exact Hsc|]. split; [exact Hc|exact Hcycles].
Defined.

(** C1 fails on [project_abc]: the edge set of [c] is {""}, which does
    not hold ["a"], and no cycle is returned. *)
Lemma end_to_end_relative_import_breaks_cycle :
  ∃ sc, scan (Some project_abc) (new_scanner ["/"; "proj"]) = Ok sc
    ∧ module_info sc
      = [("a", {| path := ["/"; "proj"; "a.py"]; imports := ["b"] |});
         ("b", {| path := ["/"; "proj"; "b.py"]; imports := ["c"] |});
         ("c", {| path := ["/"; "proj"; "c.py"]; imports := [""] |});
         ("d", {| path := ["/"; "proj"; "d.py"]; imports := [] |})]
    ∧ build_graph sc = [("a", {["b"]}); ("b", {["c"]}); ("c", {[""]}); ("d", ∅)]
    ∧ ("a" ∉ successors (build_graph sc) "c")
    ∧ find_cycles sc = Ok [].
Proof.
  eexists. split; [reflexivity|]. split; [reflexivity|].
  split; [vm_compute; reflexivity|].
  split; [|vm_compute; reflexivity].
  apply (bool_decide_unpack _). vm_compute. exact I.
Qed.

(** With an absolute import of [a] in [c], the cycle is found. *)
Lemma end_to_end_absolute_import_cycle root import_b import_c import_a entries :
  absolute_import "b" import_b →
  absolute_import "c" import_c →
  absolute_import "a" import_a →
  entries ≡ₚ [("a.py", File (Some [import_b]));
              ("b.py", File (Some [import_c]));
              ("c.py", File (Some [import_a]));
              ("d.py", File (Some []))] →
  ∃ sc cycle, scan (Some (Dir entries)) (new_scanner root) = Ok sc
    ∧ find_cycles sc = Ok [cycle]
    ∧ cycle ≡ₚ ["a"; "b"; "c"].
Proof.
  intros Hb Hc Ha Hperm.
  assert (Hfiles : Forall (λ e : string * fs_node, ∃ src, e.2 = File src) entries).
  { rewrite Hperm. repeat constructor; by eexists. }
  assert (Hrecs :
    [("a", {| path := root ++ ["a.py"]; imports := ["b"] |});
     ("b", {| path := root ++ ["b.py"]; imports := ["c"] |});
     ("c", {| path := root ++ ["c.py"]; imports := ["a"] |});
     ("d", {| path := root ++ ["d.py"]; imports := [] |})]
    ≡ₚ omap (top_level_module root) (nondirs entries)).
  { unfold nondirs. rewrite Hperm.
    by destruct Hb as [->|[? ->]], Hc as [->|[? ->]], Ha as [->|[? ->]]. }
  revert Hrecs. generalize (scan_top_level root entries Hfiles).
  generalize (omap (top_level_module root) (nondirs entries)).
  intros recs Hscan Hrecs. each_order Hrecs.
  all: do 2 eexists; split; [exact Hscan|]; rewrite find_cycles_module_info.
  all: split; [vm_compute; exact eq_refl|].
  all: apply permutations_Permutation, (bool_decide_unpack _); vm_compute; exact I.
Qed.

(** ** Cycle detector *)

Lemma elem_of_concat {A} (x : A) (ls : list (list A)) :
  x ∈ concat ls ↔ ∃ l, l ∈ ls ∧ x ∈ l.
Proof.
  rewrite list_elem_of_In, in_concat. by setoid_rewrite list_elem_of_In.
Qed.

Section Tarjan.
Context (graph : Graph).
Local Open Scope nat_scope.

Implicit Types (s : state) (v w x y : string) (gray : list string).

Lemma idx_Some s x i : indices s !! x = Some i → idx s x = i.
Proof. unfold idx. by intros ->. Qed.

Lemma idx_lookup s x : x ∈ dom (indices s) → indices s !! x = Some (idx s x).
Proof. rewrite elem_of_dom. unfold idx. by intros [i ->]. Qed.

Lemma idx_lt_index gray s x :
  inv graph gray s → x ∈ dom (indices s) → idx s x < index s.
Proof. intros Hinv Hx. eapply inv_index; [done|]. by apply idx_lookup. Qed.

Lemma frame_dom s s' x : frame s s' → x ∈ dom (indices s) → x ∈ dom (indices s').
Proof.
  intros Hf Hx. rewrite !elem_of_dom in *. by rewrite (frame_indices _ _ Hf x) by by apply elem_of_dom.
Qed.

Lemma frame_idx s s' x : frame s s' → x ∈ dom (indices s) → idx s' x = idx s x.
Proof. intros Hf Hx. unfold idx. by rewrite (frame_indices _ _ Hf). Qed.

Lemma frame_trans s1 s2 s3 : frame s1 s2 → frame s2 s3 → frame s1 s3.
Proof.
  intros H12 H23. split.
  - etrans; by eapply frame_index.
  - intros x Hx. rewrite (frame_indices _ _ H23), (frame_indices _ _ H12); eauto using frame_dom.
  - intros x Hx. rewrite (frame_lowlink _ _ H23), (frame_lowlink _ _ H12); eauto using frame_dom.
Qed.

(** The [while True] loop pops exactly the vertices above [v] and [v]. *)
Lemma pop_component_spec v added rest (ons : gset string) comp :
  NoDup (added ++ [v]) →
  (∀ x, x ∈ added ++ [v] → x ∈ ons) →
  pop_component v (added ++ v :: rest) ons comp
  = Ok (rest, ons ∖ list_to_set (added ++ [v]), comp ++ added ++ [v]).
Proof.
  revert ons comp. induction added as [|w added IH]; intros ons comp Hnd Hons; simpl.
  - rewrite decide_True by (apply Hons; set_solver).
    rewrite decide_True by done. do 3 f_equal. set_solver.
  - apply NoDup_cons in Hnd as [Hw Hnd].
    rewrite decide_True by (apply Hons; set_solver).
    rewrite decide_False by set_solver.
    rewrite IH; [|done|].
    + rewrite <- app_assoc. do 3 f_equal. set_solver.
    + intros x Hx. apply elem_of_difference. split; [apply Hons; set_solver|].
      set_solver.
Qed.

(** *** Entering a vertex *)

Lemma idx_enter_eq v s : idx (enter v s) v = index s.
Proof. unfold idx. simpl. by rewrite lookup_insert_eq. Qed.

Lemma idx_enter_ne v s x : x ≠ v → idx (enter v s) x = idx s x.
Proof. intros Hx. unfold idx. simpl. by rewrite lookup_insert_ne. Qed.

Lemma frame_enter v s : v ∉ dom (indices s) → frame s (enter v s).
Proof.
  intros Hv. split; simpl.
  - lia.
  - intros x Hx. rewrite lookup_insert_ne; [done|]. by intros ->.
  - intros x Hx. rewrite lookup_insert_ne; [done|]. by intros ->.
Qed.

Lemma enter_loop_inv gray v s0 :
  inv graph gray s0 →
  v ∉ dom (indices s0) →
  (∀ x, x ∈ stack s0 → reach graph x v) →
  loop_inv graph gray v s0 (enter v s0).
Proof.
  intros Hinv Hv Hreach.
  assert (Hstack : ∀ x, x ∈ stack s0 → x ≠ v).
  { intros x Hx ->. by apply Hv, (inv_stack_visited _ _ _ Hinv). }
  assert (Hidx : ∀ x, x ∈ stack s0 → idx (enter v s0) x = idx s0 x
                      ∧ idx s0 x < index s0).
  { intros x Hx. split; [by apply idx_enter_ne, Hstack|].
    eapply idx_lt_index; [done|]. by eapply inv_stack_visited. }
  split.
  - split; simpl.
    + intros x. rewrite elem_of_union, elem_of_singleton, elem_of_cons.
      by rewrite (inv_onstack _ _ _ Hinv).
    + intros x i. rewrite lookup_insert. case_decide.
      * intros [= <-]. lia.
      * intros Hi. apply (inv_index _ _ _ Hinv) in Hi. lia.
    + intros x. rewrite elem_of_cons, dom_insert, elem_of_union, elem_of_singleton.
      intros [->|Hx]; [by left|right]. by eapply inv_stack_visited.
    + apply NoDup_cons. split; [|by eapply inv_stack_nodup].
      intros Hin. by apply (Hstack v).
    + intros c x Hc Hx.
      destruct (inv_sccs_popped _ _ _ Hinv c x Hc Hx) as [Hdom Hnot].
      split; [rewrite dom_insert; set_solver|].
      rewrite elem_of_cons. intros [->|?]; [by apply Hv|done].
    + by eapply inv_sccs_nodup.
    + by eapply inv_sccs_size.
    + by eapply inv_sccs_conn.
    + intros x. rewrite !elem_of_cons. intros [->|Hx]; [by left|right].
      by eapply inv_gray_stack.
    + intros x y. rewrite !elem_of_cons. intros [->|Hx] [->|Hy] Hle.
      * apply rtc_refl.
      * rewrite idx_enter_eq in Hle. destruct (Hidx y Hy) as [Hy1 Hy2]. lia.
      * by apply Hreach.
      * destruct (Hidx x Hx) as [Hx1 _], (Hidx y Hy) as [Hy1 _].
        rewrite Hx1, Hy1 in Hle. by eapply inv_stack_reach.
    + intros y. rewrite elem_of_cons. intros [->|Hy].
      * exists v. split; [by left|]. split; [done|apply rtc_refl].
      * destruct (inv_stack_gray _ _ _ Hinv y Hy) as (x & Hx & Hle & Hyx).
        exists x. split; [by right|]. split; [|done].
        destruct (Hidx y Hy) as [-> _].
        destruct (Hidx x) as [-> _]; [by eapply inv_gray_stack|done].
  - by apply frame_enter.
  - simpl. by rewrite lookup_insert_eq.
  - simpl. lia.
  - exists []. split; [done|]. by intros x ?%elem_of_nil.
  - exists (index s0), v. simpl. rewrite lookup_insert_eq.
    split; [done|]. split; [by left|]. split; [apply idx_enter_eq|].
    split; [done|apply rtc_refl].
Qed.

(** *** The loop over the edges *)

Lemma edge_vertices v w : edge graph v w → w ∈ vertices graph.
Proof.
  unfold edge, successors, vertices. intros Hw.
  apply elem_of_app. right. apply elem_of_flat_map.
  induction graph as [|[k ws] g IH]; simpl in *; [by apply elem_of_nil in Hw|].
  case_decide.
  - exists (k, ws). split; [by left|done].
  - destruct (IH Hw) as (kv & Hkv & Hin). exists kv. split; [by right|done].
Qed.

Lemma unvisited_loop gray v s0 s :
  loop_inv graph gray v s0 s →
  v ∈ vertices graph →
  v ∉ dom (indices s0) →
  size (unvisited graph s) < size (unvisited graph s0).
Proof.
  intros Hli Hv Hnew. apply subset_size. unfold unvisited.
  assert (Hsub : dom (indices s0) ⊆ dom (indices s)).
  { intros x Hx. by eapply frame_dom, Hx; eapply li_frame. }
  assert (Hvis : v ∈ dom (indices s)).
  { apply elem_of_dom. rewrite (li_v_index _ _ _ _ _ Hli). by eexists. }
  apply strict_spec_alt. split; [set_solver|].
  intros Heq. assert (v ∈ (list_to_set (vertices graph) : gset string) ∖ dom (indices s0)) as Hin.
  { apply elem_of_difference. split; [by apply elem_of_list_to_set|done]. }
  rewrite <- Heq in Hin. set_solver.
Qed.

(** Changing [lowlink] alone keeps the invariant. *)
Lemma inv_lowlink gray s (lowlink' : gmap string nat) :
  inv graph gray s →
  inv graph gray
    {| index := index s; stack := stack s; onstack := onstack s;
       indices := indices s; lowlink := lowlink'; sccs := sccs s |}.
Proof. intros []. by split. Qed.

Lemma lower_loop_inv gray v s0 s n :
  loop_inv graph gray v s0 s →
  v ∉ dom (indices s0) →
  (∀ lv, lowlink s !! v = Some lv → n < lv →
         ∃ y, y ∈ stack s ∧ idx s y = n ∧ reach graph v y) →
  ∃ s', lower v n s = Ok s' ∧ loop_inv graph gray v s0 s'.
Proof.
  intros Hli Hnew Hn.
  destruct (li_low _ _ _ _ _ Hli) as (lv & x & Hlv & Hx & Hidx & Hle & Hvx).
  unfold lower, getitem. rewrite Hlv. simpl. eexists. split; [done|].
  split; simpl.
  - by apply inv_lowlink, (li_inv _ _ _ _ _ Hli).
  - destruct (li_frame _ _ _ _ _ Hli) as [H1 H2 H3]. split; simpl; [done..|].
    intros y Hy. rewrite lookup_insert_ne; [by apply H3|]. by intros <-.
  - by eapply li_v_index.
  - by eapply li_index.
  - exact (li_stack _ _ _ _ _ Hli).
  - rewrite lookup_insert_eq.
    destruct (decide (n < lv)) as [Hlt|Hge].
    + destruct (Hn lv Hlv Hlt) as (y & Hy & Hyn & Hvy).
      exists (lv `min` n), y. split; [done|]. split; [done|].
      split; [unfold idx in *; simpl; lia|]. split; [lia|done].
    + exists (lv `min` n), x. split; [done|]. split; [done|].
      split; [unfold idx in *; simpl; lia|]. split; [lia|done].
Qed.

Lemma visit_edge_loop_inv depth gray v s0 s w :
  dfs_ok graph depth →
  inv graph gray s0 →
  v ∉ dom (indices s0) →
  v ∈ vertices graph →
  size (unvisited graph s0) < S depth →
  loop_inv graph gray v s0 s →
  edge graph v w →
  ∃ s', visit_edge (dfs depth graph) v s w = Ok s' ∧ loop_inv graph gray v s0 s'.
Proof.
  intros IH Hinv0 Hnew Hv Hfuel Hli Hedge.
  pose proof (li_inv _ _ _ _ _ Hli) as Hinv.
  pose proof (li_frame _ _ _ _ _ Hli) as Hframe.
  assert (Hvidx : idx s v = index s0) by by apply idx_Some, (li_v_index _ _ _ _ _ Hli).
  assert (Hvdom : v ∈ dom (indices s)).
  { apply elem_of_dom. rewrite (li_v_index _ _ _ _ _ Hli). by eexists. }
  unfold visit_edge. case_decide as Hw.
  - (* [w] is new: the recursive call *)
    destruct (IH (v :: gray) w s) as (s1 & -> & Hpost); [done|done| | | |].
    { by eapply edge_vertices. }
    { intros x Hx.
      destruct (inv_stack_gray _ _ _ Hinv x Hx) as (gx & Hgx & Hle & Hxg).
      etrans; [exact Hxg|]. etrans; [|by apply rtc_once].
      eapply (inv_stack_reach _ _ _ Hinv);
        [by eapply inv_gray_stack|by apply (inv_gray_stack _ _ _ Hinv); left|].
      apply elem_of_cons in Hgx as [->|Hgx]; [done|].
      assert (gx ∈ dom (indices s0)).
      { by eapply inv_stack_visited, inv_gray_stack. }
      rewrite (frame_idx s0 s) by done. rewrite Hvidx.
      apply Nat.lt_le_incl. by eapply idx_lt_index. }
    { pose proof (unvisited_loop _ _ _ _ Hli Hv Hnew). lia. }
    simpl.
    destruct (post_low _ _ _ _ _ Hpost) as (lw & Hlw & Hlow).
    unfold getitem at 1. rewrite Hlw. simpl.
    pose proof (post_frame _ _ _ _ _ Hpost) as Hframe1.
    destruct (post_stack _ _ _ _ _ Hpost) as (added1 & Hstack1 & Hadded1).
    destruct (li_stack _ _ _ _ _ Hli) as (added & Hstack & Hadded).
    assert (Hli1 : loop_inv graph gray v s0 s1).
    { split.
      - by eapply post_inv.
      - by eapply frame_trans.
      - rewrite (frame_indices _ _ Hframe1) by done. by eapply li_v_index.
      - pose proof (li_index _ _ _ _ _ Hli). pose proof (frame_index _ _ Hframe1). lia.
      - exists (added1 ++ added). rewrite Hstack1, Hstack, <- app_assoc.
        split; [done|]. intros x [Hx|Hx]%elem_of_app.
        + pose proof (li_index _ _ _ _ _ Hli). specialize (Hadded1 x Hx). lia.
        + rewrite (frame_idx s s1); [by apply Hadded|done|].
          eapply inv_stack_visited; [done|]. rewrite Hstack. set_solver.
      - destruct (li_low _ _ _ _ _ Hli) as (lv & x & Hlv & Hx & Hidx & Hle & Hvx).
        exists lv, x. rewrite (frame_lowlink _ _ Hframe1) by done.
        split; [done|]. split; [rewrite Hstack1; set_solver|].
        split; [|done].
        rewrite (frame_idx s s1); [done..|]. by eapply inv_stack_visited. }
    apply lower_loop_inv; [done..|].
    intros lv Hlv Hlt.
    destruct (li_low _ _ _ _ _ Hli) as (lv' & _ & Hlv' & _ & _ & Hle & _).
    rewrite (frame_lowlink _ _ Hframe1) in Hlv by done.
    assert (lv' = lv) as -> by congruence.
    destruct Hlow as (y & Hy & Hyidx & Hwy).
    { pose proof (li_index _ _ _ _ _ Hli). lia. }
    exists y. split; [rewrite Hstack1; set_solver|].
    split; [|by etrans; [apply rtc_once|]].
    rewrite (frame_idx s s1); [done..|]. by eapply inv_stack_visited.
  - case_decide as Hon; [|by eexists].
    (* [w] is on the stack *)
    unfold getitem. rewrite (idx_lookup _ _ Hw). simpl.
    apply lower_loop_inv; [done..|].
    intros lv Hlv Hlt. exists w.
    split; [by apply (inv_onstack _ _ _ Hinv)|]. split; [done|by apply rtc_once].
Qed.

Lemma edges_loop_inv depth gray v s0 ws s :
  dfs_ok graph depth →
  inv graph gray s0 →
  v ∉ dom (indices s0) →
  v ∈ vertices graph →
  size (unvisited graph s0) < S depth →
  (∀ w, w ∈ ws → edge graph v w) →
  loop_inv graph gray v s0 s →
  ∃ s', for_each (visit_edge (dfs depth graph) v) ws s = Ok s'
        ∧ loop_inv graph gray v s0 s'.
Proof.
  intros IH Hinv0 Hnew Hv Hfuel. revert s.
  induction ws as [|w ws IHws]; intros s Hws Hli; simpl; [by eexists|].
  destruct (visit_edge_loop_inv depth gray v s0 s w) as (s1 & -> & Hli1);
    [done..|apply Hws; by left|].
  simpl. apply IHws; [|done]. intros w' Hw'. apply Hws. by right.
Qed.

(** *** After the loop: the component of a root is popped *)

Lemma finish_post gray v s0 s :
  inv graph gray s0 →
  v ∉ dom (indices s0) →
  loop_inv graph gray v s0 s →
  ∃ s', finish v s = Ok s' ∧ dfs_post graph gray v s0 s'.
Proof.
  intros Hinv0 Hnew Hli.
  pose proof (li_inv _ _ _ _ _ Hli) as Hinv.
  pose proof (li_frame _ _ _ _ _ Hli) as Hframe.
  pose proof (li_v_index _ _ _ _ _ Hli) as Hvi.
  assert (Hvidx : idx s v = index s0) by by apply idx_Some.
  destruct (li_stack _ _ _ _ _ Hli) as (added & Hstack & Hadded).
  destruct (li_low _ _ _ _ _ Hli) as (lv & x0 & Hlv & Hx0 & Hx0idx & Hle & Hvx0).
  assert (Hold : ∀ x, x ∈ stack s0 →
                      x ∈ dom (indices s0) ∧ idx s x = idx s0 x ∧ idx s0 x < index s0).
  { intros x Hx.
    assert (x ∈ dom (indices s0)) by by eapply inv_stack_visited.
    split; [done|]. split; [by apply frame_idx|by eapply idx_lt_index]. }
  assert (Hgray : ∀ x, x ∈ v :: gray → reach graph x v).
  { intros x Hx. eapply (inv_stack_reach _ _ _ Hinv);
      [by eapply inv_gray_stack|by apply (inv_gray_stack _ _ _ Hinv); left|].
    apply elem_of_cons in Hx as [->|Hx]; [done|].
    destruct (Hold x) as (_ & -> & ?); [by eapply inv_gray_stack|]. lia. }
  assert (Hnd : NoDup (added ++ v :: stack s0)).
  { rewrite <- Hstack. by eapply inv_stack_nodup. }
  unfold finish, getitem. rewrite Hlv, Hvi. simpl. case_decide as Hroot.
  - (* [v] is the root of its component *)
    subst lv.
    rewrite Hstack, pop_component_spec; simpl.
    2:{ rewrite cons_middle, app_assoc in Hnd. by apply NoDup_app in Hnd as [? _]. }
    2:{ intros x Hx. apply (inv_onstack _ _ _ Hinv). rewrite Hstack. set_solver. }
    eexists. split; [done|].
    assert (Hcomp : ∀ x, x ∈ added ++ [v] → x ∈ stack s ∧ (x ∉ stack s0)
                         ∧ reach graph x v ∧ reach graph v x).
    { intros x Hx.
      assert (Hxs : x ∈ stack s) by (rewrite Hstack; set_solver).
      split; [done|]. split.
      { intros Hx0'. rewrite cons_middle, app_assoc in Hnd.
        apply NoDup_app in Hnd as (_ & Hdisj & _). by apply (Hdisj x). }
      split.
      - destruct (inv_stack_gray _ _ _ Hinv x Hxs) as (gx & Hgx & _ & Hxg).
        etrans; [exact Hxg|by apply Hgray].
      - eapply (inv_stack_reach _ _ _ Hinv);
          [by apply (inv_gray_stack _ _ _ Hinv); left|done|].
        rewrite Hvidx. apply elem_of_app in Hx as [Hx|Hx].
        + specialize (Hadded x Hx). lia.
        + apply list_elem_of_singleton in Hx as ->. lia. }
    split; simpl.
    + split; simpl.
      * intros x. rewrite elem_of_difference, (inv_onstack _ _ _ Hinv), Hstack.
        rewrite elem_of_list_to_set. split.
        -- intros [Hx Hnx]. set_solver.
        -- intros Hx. split; [set_solver|]. intros Hx'. by apply (Hcomp x).
      * by eapply inv_index.
      * intros x Hx. eapply inv_stack_visited; [done|]. rewrite Hstack. set_solver.
      * by apply NoDup_app in Hnd as (_ & _ & ?%NoDup_cons_1_2).
      * intros c x Hc Hx.
        assert (Hcases : c ∈ sccs s ∨ (c = added ++ [v])).
        { case_decide; [|by left].
          apply elem_of_app in Hc as [?|Hc]; [by left|right].
          by apply list_elem_of_singleton in Hc. }
        destruct Hcases as [Hc'| ->].
        -- destruct (inv_sccs_popped _ _ _ Hinv c x Hc' Hx) as [? Hns].
           split; [done|]. intros Hxs. apply Hns. rewrite Hstack. set_solver.
        -- destruct (Hcomp x Hx) as (? & ? & _).
           split; [by eapply inv_stack_visited|done].
      * case_decide; [|by eapply inv_sccs_nodup].
        rewrite concat_app. simpl. rewrite app_nil_r.
        apply NoDup_app. split; [by eapply inv_sccs_nodup|]. split.
        -- intros x (c & Hc & Hxc)%elem_of_concat Hx.
           destruct (inv_sccs_popped _ _ _ Hinv c x Hc Hxc) as [_ Hns].
           by apply Hns, Hcomp.
        -- rewrite cons_middle, app_assoc in Hnd. by apply NoDup_app in Hnd as [? _].
      * intros c Hc. case_decide as Hlen; [|by eapply inv_sccs_size].
        apply elem_of_app in Hc as [?|Hc]; [by eapply inv_sccs_size|].
        by apply list_elem_of_singleton in Hc as ->.
      * intros c x y Hc Hx Hy.
        assert (Hcases : c ∈ sccs s ∨ (c = added ++ [v])).
        { case_decide; [|by left].
          apply elem_of_app in Hc as [?|Hc]; [by left|right].
          by apply list_elem_of_singleton in Hc. }
        destruct Hcases as [Hc'| ->]; [by eapply inv_sccs_conn|].
        destruct (Hcomp x Hx) as (_ & _ & Hxv & _).
        destruct (Hcomp y Hy) as (_ & _ & _ & Hvy). by etrans.
      * by eapply inv_gray_stack.
      * intros x y Hx Hy Hxy.
        eapply (inv_stack_reach _ _ _ Hinv); [rewrite Hstack; set_solver..|done].
      * intros y Hy.
        destruct (inv_stack_gray _ _ _ Hinv y) as (gx & Hgx & Hgle & Hyg);
          [rewrite Hstack; set_solver|].
        exists gx. split; [|split; [exact Hgle|done]].
        apply elem_of_cons in Hgx as [->|Hgx]; [|done].
        destruct (Hold y Hy) as (_ & Hy1 & Hy2). lia.
    + destruct Hframe. split; simpl; done.
    + apply elem_of_dom. by eexists.
    + exists []. split; [done|]. by intros x ?%elem_of_nil.
    + exists (idx s x0). split; [done|]. lia.
  - (* [v] is not the root: it stays on the stack *)
    assert (Hlt : lv < index s0) by lia.
    assert (Hx0old : x0 ∈ stack s0).
    { rewrite Hstack in Hx0.
      apply elem_of_app in Hx0 as [Hx0|Hx0]; [specialize (Hadded x0 Hx0); lia|].
      apply elem_of_cons in Hx0 as [->|Hx0]; [lia|done]. }
    exists s. split; [done|]. split.
    + destruct Hinv as [? ? ? ? ? ? ? ? Hgs ? Hsg]. split; try done.
      * intros x Hx. apply Hgs. by right.
      * intros y Hy.
        destruct (Hsg y Hy) as (gx & Hgx & Hgle & Hyg).
        apply elem_of_cons in Hgx as [->|Hgx]; [|by exists gx].
        destruct (Hsg x0 Hx0) as (g0 & Hg0 & Hg0le & Hx0g).
        apply elem_of_cons in Hg0 as [->|Hg0]; [lia|].
        exists g0. split; [done|]. split; [lia|].
        etrans; [exact Hyg|]. by etrans.
    + done.
    + apply elem_of_dom. by eexists.
    + exists (added ++ [v]). rewrite <- app_assoc. split; [done|].
      intros x [Hx|Hx]%elem_of_app.
      * specialize (Hadded x Hx). lia.
      * apply list_elem_of_singleton in Hx as ->. lia.
    + exists lv. split; [done|]. intros _. exists x0.
      split; [done|]. split; [|done].
      destruct (Hold x0 Hx0old) as (_ & <- & _). done.
Qed.

(** *** The whole traversal *)

(** A call of [dfs] never exceeds the depth it is given when that depth
    is above the number of vertices not visited yet: it raises nothing
    and establishes [dfs_post]. *)
Lemma dfs_total depth : dfs_ok graph depth.
Proof.
  induction depth as [|depth IH]; intros gray v s0 Hinv Hnew Hv Hreach Hfuel; [lia|].
  simpl.
  destruct (edges_loop_inv depth gray v s0 (successors graph v) (enter v s0))
    as (s1 & -> & Hli); [done..|by apply enter_loop_inv|].
  simpl. by apply finish_post.
Qed.

Lemma size_list_to_set_le (l : list string) :
  size (list_to_set l : gset string) ≤ length l.
Proof.
  induction l as [|x l IH].
  { change (size (∅ : gset string) ≤ 0). by rewrite size_empty. }
  rewrite list_to_set_cons, size_union_alt, size_singleton. cbn [length].
  assert (size ((list_to_set l : gset string) ∖ {[x]}) ≤ size (list_to_set l : gset string)).
  { apply subseteq_size. set_solver. }
  lia.
Qed.

Lemma unvisited_bound s : size (unvisited graph s) < depth_bound graph.
Proof.
  unfold depth_bound, unvisited.
  pose proof (size_list_to_set_le (vertices graph)).
  assert (size ((list_to_set (vertices graph) : gset string) ∖ dom (indices s))
          ≤ size (list_to_set (vertices graph) : gset string)).
  { apply subseteq_size. set_solver. }
  lia.
Qed.

Lemma inv_init : inv graph [] init.
Proof.
  split; simpl; try done.
  - intros x. by rewrite elem_of_nil, elem_of_empty.
  - by intros x ?%elem_of_nil.
  - constructor.
  - by intros c x ?%elem_of_nil.
  - constructor.
  - by intros c ?%elem_of_nil.
  - by intros c x y ?%elem_of_nil.
  - by intros x y ?%elem_of_nil.
  - by intros y ?%elem_of_nil.
Qed.

(** Between two roots the stack is empty. *)
Lemma inv_no_gray_stack s : inv graph [] s → stack s = [].
Proof.
  intros Hinv. destruct (stack s) as [|x l] eqn:Hs; [done|].
  destruct (inv_stack_gray _ _ _ Hinv x) as (g & Hg & _); [rewrite Hs; by left|].
  by apply elem_of_nil in Hg.
Qed.

Lemma visit_root_inv s v :
  inv graph [] s →
  v ∈ Dict.keys graph →
  ∃ s', visit_root graph s v = Ok s' ∧ inv graph [] s'.
Proof.
  intros Hinv Hv. unfold visit_root. case_decide as Hnew; [|by eexists].
  destruct (dfs_total (depth_bound graph) [] v s) as (s' & -> & Hpost); [done..| | | |].
  - unfold vertices. apply elem_of_app. by left.
  - rewrite (inv_no_gray_stack s Hinv). by intros x ?%elem_of_nil.
  - apply unvisited_bound.
  - eexists. split; [done|]. by eapply post_inv.
Qed.

Lemma roots_inv vs s :
  inv graph [] s →
  (∀ v, v ∈ vs → v ∈ Dict.keys graph) →
  ∃ s', for_each (visit_root graph) vs s = Ok s' ∧ inv graph [] s'.
Proof.
  revert s. induction vs as [|v vs IH]; intros s Hinv Hvs; simpl; [by eexists|].
  destruct (visit_root_inv s v) as (s1 & -> & Hinv1); [done|apply Hvs; by left|].
  simpl. apply IH; [done|]. intros w Hw. apply Hvs. by right.
Qed.

(** [strongly_connected_components] returns, and its result is the
    [sccs] of a state that satisfies the invariant. *)
Lemma strongly_connected_components_inv :
  ∃ s, strongly_connected_components graph = Ok (sccs s) ∧ inv graph [] s.
Proof.
  destruct (roots_inv (Dict.keys graph) init) as (s & Hs & Hinv);
    [apply inv_init|done|].
  exists s. split; [|done]. unfold strongly_connected_components. by rewrite Hs.
Qed.

(** Two vertices of a returned component are distinct members of a
    common cycle. *)
Lemma reach_cycle x y :
  x ≠ y → reach graph x y → reach graph y x → tc (edge graph) x x.
Proof.
  intros Hne Hxy Hyx. apply rtc_tc in Hxy as [?|Hxy]; [done|].
  by eapply tc_rtc_r.
Qed.

Lemma component_other (c : list string) x :
  NoDup c → 1 < length c → x ∈ c → ∃ y, y ∈ c ∧ y ≠ x.
Proof.
  intros Hnd Hlen Hx. destruct c as [|a [|b c]]; simpl in *; [lia..|].
  apply NoDup_cons in Hnd as [Hab _].
  destruct (decide (x = a)) as [->|Hne].
  - exists b. split; [set_solver|]. intros ->. apply Hab. by left.
  - exists a. split; [by left|done].
Qed.

Lemma NoDup_concat_elem (ls : list (list string)) c :
  NoDup (concat ls) → c ∈ ls → NoDup c.
Proof.
  intros Hnd Hc. induction ls as [|l ls IH]; [by apply elem_of_nil in Hc|].
  simpl in Hnd. apply NoDup_app in Hnd as (Hl & _ & Hls).
  apply elem_of_cons in Hc as [->|Hc]; [done|by apply IH].
Qed.

Lemma NoDup_concat_disjoint (ls : list (list string)) i j ci cj x :
  NoDup (concat ls) → i ≠ j → ls !! i = Some ci → ls !! j = Some cj →
  x ∈ ci → x ∉ cj.
Proof.
  revert i j. induction ls as [|l ls IH]; intros i j Hnd Hij Hi Hj Hxi Hxj; [done|].
  simpl in Hnd. apply NoDup_app in Hnd as (Hl & Hdisj & Hls).
  destruct i as [|i], j as [|j]; simpl in *; simplify_eq.
  - apply (Hdisj x Hxi), elem_of_concat. exists cj. split; [|done].
    by eapply list_elem_of_lookup_2.
  - apply (Hdisj x Hxj), elem_of_concat. exists ci. split; [|done].
    by eapply list_elem_of_lookup_2.
  - eapply (IH i j); eauto.
Qed.

End Tarjan.

Lemma successors_not_key (graph : Graph) v :
  v ∉ Dict.keys graph → successors graph v = [].
Proof. intros Hv. unfold successors. by rewrite (proj1 (dict_get_None graph v) Hv). Qed.

Lemma edge_key (graph : Graph) v w : edge graph v w → v ∈ Dict.keys graph.
Proof.
  intros Hw. destruct (decide (v ∈ Dict.keys graph)) as [|Hv]; [done|].
  unfold edge in Hw. rewrite (successors_not_key _ _ Hv) in Hw.
  by apply elem_of_nil in Hw.
Qed.

(** An edge of the graph is a member of the set stored under a key. *)
Lemma edge_spec (graph : Graph) v w :
  edge graph v w ↔ ∃ ws, Dict.get graph v = Some ws ∧ w ∈ ws.
Proof.
  unfold edge, successors. destruct (Dict.get graph v) as [ws|].
  - rewrite elem_of_elements. naive_solver.
  - rewrite elem_of_nil. naive_solver.
Qed.

Lemma dfs_roots_subset (graph : Graph) vs s x :
  x ∈ dfs_roots graph vs s → x ∈ vs.
Proof.
  revert s. induction vs as [|v vs IH]; intros s; cbn [dfs_roots]; [done|].
  case_decide.
  - rewrite !elem_of_cons. intros [->|Hx]; [by left|right].
    destruct (dfs _ _ _ _); [by eapply IH|by apply elem_of_nil in Hx].
  - rewrite elem_of_cons. intros Hx. right. by eapply IH.
Qed.

(** The loop over the keys is the sequence of the calls of [dfs] on
    [dfs_roots]. *)
Lemma root_loop_calls (graph : Graph) vs s :
  for_each (visit_root graph) vs s
  = for_each (λ s r, dfs (depth_bound graph) graph r s) (dfs_roots graph vs s) s.
Proof.
  revert s. induction vs as [|v vs IH]; intros s; [done|].
  cbn [for_each dfs_roots]. destruct (decide (v ∉ dom (indices s))) as [Hv|Hv].
  - assert (visit_root graph s v = dfs (depth_bound graph) graph v s) as ->.
    { unfold visit_root. by rewrite decide_True. }
    cbn [for_each]. destruct (dfs (depth_bound graph) graph v s) as [s'|e].
    + exact (IH s').
    + reflexivity.
  - assert (visit_root graph s v = Ok s) as ->.
    { unfold visit_root. by rewrite decide_False. }
    exact (IH s).
Qed.

Lemma tc_first_edge {A} (R : relation A) x y : tc R x y → ∃ z, R x z.
Proof. destruct 1; eauto. Qed.

(** What the invariant gives for the returned components. *)
Lemma strongly_connected_components_sound (graph : Graph) :
  ∃ cycles, strongly_connected_components graph = Ok cycles
    ∧ NoDup (concat cycles)
    ∧ (∀ c, c ∈ cycles → (1 < length c)%nat)
    ∧ (∀ c x y, c ∈ cycles → x ∈ c → y ∈ c → reach graph x y).
Proof.
  destruct (strongly_connected_components_inv graph) as (s & Hs & Hinv).
  exists (sccs s). split; [done|]. split; [by eapply inv_sccs_nodup|].
  split; [by eapply inv_sccs_size|by eapply inv_sccs_conn].
Qed.

(** Every vertex of a returned component lies on a cycle through another
    vertex of the component. *)
Lemma component_cycle (graph : Graph) cycles c x :
  NoDup (concat cycles) →
  (∀ c, c ∈ cycles → (1 < length c)%nat) →
  (∀ c x y, c ∈ cycles → x ∈ c → y ∈ c → reach graph x y) →
  c ∈ cycles → x ∈ c →
  ∃ y, y ∈ c ∧ y ≠ x ∧ reach graph x y ∧ reach graph y x
       ∧ tc (edge graph) x x.
Proof.
  intros Hnd Hsize Hconn Hc Hx.
  destruct (component_other c x) as (y & Hy & Hne);
    [by eapply NoDup_concat_elem|by apply Hsize|done|].
  exists y. split; [done|]. split; [done|].
  assert (reach graph x y) by by eapply Hconn.
  assert (reach graph y x) by by eapply Hconn.
  split; [done|]. split; [done|]. by eapply reach_cycle.
Qed.

(** C5: [strongly_connected_components] returns; two different
    components of its result share no vertex; and every vertex of a
    returned component has a nonempty path of graph edges back to
    itself. *)
Theorem scc_components_disjoint_and_cyclic (graph : Graph) :
  ∃ cycles, strongly_connected_components graph = Ok cycles
    ∧ (∀ i j ci cj x,
         i ≠ j → cycles !! i = Some ci → cycles !! j = Some cj →
         x ∈ ci → x ∉ cj)
    ∧ (∀ c x, c ∈ cycles → x ∈ c → tc (edge graph) x x).
Proof.
  destruct (strongly_connected_components_sound graph)
    as (cycles & Hcycles & Hnd & Hsize & Hconn).
  exists cycles. split; [done|]. split.
  - intros i j ci cj x. by apply NoDup_concat_disjoint.
  - intros c x Hc Hx.
    by destruct (component_cycle graph cycles c x) as (_ & _ & _ & _ & _ & ?).
Qed.

(** In a graph whose only edge is the self-loop of [M], no nonempty path
    joins two different vertices. *)
Lemma self_loop_reach M x y : reach [(M, {[M]})] x y → x = y ∨ (x = M ∧ y = M).
Proof.
  induction 1 as [x|x z y Hxz _ IH]; [by left|].
  apply edge_spec in Hxz as (ws & Hget & Hz). simpl in Hget.
  case_decide; [|done]. simplify_eq. apply elem_of_singleton in Hz as ->.
  destruct IH as [<-|[_ <-]]; by right.
Qed.

(** C6: a returned component never has fewer than two vertices, all
    different; a module that is on no cycle with another module is in no
    returned component, whether or not it imports itself; and the graph
    of one module that imports itself has no returned component. *)
Theorem self_import_not_reported :
  (∀ graph : Graph,
     ∃ cycles, strongly_connected_components graph = Ok cycles
       ∧ (∀ c, c ∈ cycles → NoDup c ∧ (2 ≤ length c)%nat)
       ∧ (∀ M,
            (∀ M', M' ≠ M → ¬ (reach graph M M' ∧ reach graph M' M)) →
            ∀ c, c ∈ cycles → M ∉ c))
  ∧ (∀ M, edge [(M, {[M]})] M M
          ∧ strongly_connected_components [(M, {[M]})] = Ok []).
Proof.
  split.
  - intros graph.
    destruct (strongly_connected_components_sound graph)
      as (cycles & Hcycles & Hnd & Hsize & Hconn).
    exists cycles. split; [done|]. split.
    + intros c Hc. split; [by eapply NoDup_concat_elem|]. specialize (Hsize c Hc). lia.
    + intros M Halone c Hc HM.
      destruct (component_cycle graph cycles c M) as (M' & _ & Hne & H1 & H2 & _);
        [done..|].
      by apply (Halone M').
  - intros M. split.
    { apply edge_spec. exists {[M]}. simpl. rewrite decide_True by done.
      split; [done|set_solver]. }
    destruct (strongly_connected_components_sound [(M, {[M]})])
      as (cycles & Hcycles & Hnd & Hsize & Hconn).
    rewrite Hcycles. f_equal. destruct cycles as [|c cycles]; [done|exfalso].
    assert (Hc : c ∈ c :: cycles) by by left.
    pose proof (Hsize c Hc) as Hlen. destruct c as [|x c]; [simpl in Hlen; lia|].
    destruct (component_cycle [(M, {[M]})] ((x :: c) :: cycles) (x :: c) x)
      as (y & _ & Hne & Hxy & Hyx & _); [done..|by left|].
    apply self_loop_reach in Hxy as [?|[? ?]]; [done|]. congruence.
Qed.

(** C7: a vertex that is not a key of the graph has no successor, is
    never a vertex on which the loop over the keys calls [dfs] (the loop
    being the sequence of the calls on [dfs_roots]), and is in no returned
    component. *)
Theorem external_targets_inert (graph : Graph) v :
  v ∉ Dict.keys graph →
  successors graph v = []
  ∧ for_each (visit_root graph) (Dict.keys graph) init
    = for_each (λ s r, dfs (depth_bound graph) graph r s)
        (dfs_roots graph (Dict.keys graph) init) init
  ∧ (v ∉ dfs_roots graph (Dict.keys graph) init)
  ∧ ∃ cycles, strongly_connected_components graph = Ok cycles
      ∧ ∀ c, c ∈ cycles → v ∉ c.
Proof.
  intros Hv. split; [by apply successors_not_key|].
  split; [apply root_loop_calls|]. split.
  { intros Hroot. by apply Hv, (dfs_roots_subset graph _ init). }
  destruct (strongly_connected_components_sound graph)
    as (cycles & Hcycles & Hnd & Hsize & Hconn).
  exists cycles. split; [done|]. intros c Hc Hvc.
  destruct (component_cycle graph cycles c v) as (_ & _ & _ & _ & _ & Hcycle); [done..|].
  apply Hv. destruct (tc_first_edge _ _ _ Hcycle) as [w Hedge]. by eapply edge_key.
Qed.

(** The theorem at a target that is not a key. *)
Lemma external_targets_inert_witness :
  successors [("a", {["b"; "ext"]}); ("b", {["a"]})] "ext" = []
  ∧ ∃ cycles,
      strongly_connected_components [("a", {["b"; "ext"]}); ("b", {["a"]})]
      = Ok cycles
      ∧ ∀ c, c ∈ cycles → "ext" ∉ c.
Proof.
  destruct (external_targets_inert [("a", {["b"; "ext"]}); ("b", {["a"]})] "ext")
    as (Hsucc & _ & _ & Hcycles).
  - apply (bool_decide_unpack _). vm_compute. exact I.
  - split; [exact Hsucc|exact Hcycles].
Defined.

Example scc_two_cycles :
  strongly_connected_components
    [("a", {["b"; "x"]}); ("b", {["a"]}); ("c", {["d"]}); ("d", {["c"; "e"]});
     ("e", {["e"]})]
  = Ok [["b"; "a"]; ["d"; "c"]].
Proof. vm_compute. reflexivity. Qed.

(** ** Completeness of the cycle detector *)

Section TarjanComplete.
Context (graph : Graph).
Local Open Scope nat_scope.

Implicit Types (s : state) (v w x y z : string) (gray ws : list string).

Lemma cinv_lowlink gray s (lowlink' : gmap string nat) :
  cinv graph gray s →
  cinv graph gray
    {| index := index s; stack := stack s; onstack := onstack s;
       indices := indices s; lowlink := lowlink'; sccs := sccs s |}.
Proof. intros [H1 H2 H3]. by split. Qed.

(** The gray vertices other than [v] were on the stack before [v]. *)
Lemma loop_gray_index gray v s0 s x :
  inv graph gray s0 → loop_inv graph gray v s0 s →
  x ∈ gray → x ∈ dom (indices s0) ∧ idx s x = idx s0 x ∧ idx s0 x < index s0.
Proof.
  intros Hinv0 Hli Hx.
  assert (x ∈ dom (indices s0)) by by eapply inv_stack_visited, inv_gray_stack.
  split; [done|].
  split; [exact (frame_idx s0 s _ (li_frame _ _ _ _ _ Hli) ltac:(done))|by eapply idx_lt_index].
Qed.

Lemma loop_stack_cases gray v s0 s y :
  inv graph gray s0 → loop_inv graph gray v s0 s → y ∈ stack s →
  (index s0 < idx s y ∧ y ∉ v :: gray)
  ∨ y = v
  ∨ (y ∈ stack s0 ∧ idx s y = idx s0 y ∧ idx s0 y < index s0).
Proof.
  intros Hinv0 Hli Hy.
  destruct (li_stack _ _ _ _ _ Hli) as (added & Hstack & Hadded).
  rewrite Hstack in Hy. apply elem_of_app in Hy as [Hy|Hy].
  - left. split; [by apply Hadded|]. specialize (Hadded y Hy).
    intros [->|Hg]%elem_of_cons.
    + rewrite (idx_Some _ _ _ (li_v_index _ _ _ _ _ Hli)) in Hadded. lia.
    + destruct (loop_gray_index gray v s0 s y) as (_ & ? & ?); [done..|]. lia.
  - apply elem_of_cons in Hy as [->|Hy]; [by right; left|]. right; right.
    assert (y ∈ dom (indices s0)) by by eapply inv_stack_visited.
    split; [done|].
  split; [exact (frame_idx s0 s _ (li_frame _ _ _ _ _ Hli) ltac:(done))|by eapply idx_lt_index].
Qed.

Lemma enter_cloop gray v s0 :
  inv graph gray s0 → cinv graph gray s0 → v ∉ dom (indices s0) →
  cloop graph gray v (successors graph v) (enter v s0).
Proof.
  intros Hinv Hc Hv.
  assert (Hgray : ∀ x, x ∈ dom (indices s0) → x ∉ stack s0 → x ∉ gray).
  { intros x _ Hns Hg. by apply Hns, (inv_gray_stack _ _ _ Hinv). }
  split.
  - split; simpl.
    + intros x z. rewrite !dom_insert, !elem_of_union, !elem_of_singleton, not_elem_of_cons.
      intros [->|Hx] [Hne Hg] Hedge; [done|]. right. by eapply cinv_succ.
    + intros x z. rewrite !dom_insert, !elem_of_union, !elem_of_singleton, !not_elem_of_cons.
      intros [->|Hx] [Hne Hns] Hedge; [done|].
      split; [|by eapply cinv_closed].
      intros ->. apply Hv. eapply cinv_succ; [done|done| |done]. by apply Hgray.
    + intros x y Hne. rewrite dom_insert, elem_of_union, elem_of_singleton, not_elem_of_cons.
      intros [->|Hx] [Hne' Hns]; [done|]. by eapply cinv_complete.
  - intros lv y z _. simpl. rewrite elem_of_cons, idx_enter_eq.
    intros [->|Hy] Hlt; [rewrite idx_enter_eq in Hlt; lia|].
    assert (Hyd : y ∈ dom (indices s0)) by by eapply inv_stack_visited.
    rewrite idx_enter_ne in Hlt by by intros ->.
    pose proof (idx_lt_index graph gray s0 y Hinv Hyd). lia.
  - intros lv w _ Hedge. by left.
Qed.

(** Every stack vertex reaches the successors of the vertex in progress. *)
Lemma loop_stack_reach gray v s0 s w x :
  inv graph gray s0 → loop_inv graph gray v s0 s → edge graph v w →
  x ∈ stack s → reach graph x w.
Proof.
  intros Hinv0 Hli Hedge Hx.
  pose proof (li_inv _ _ _ _ _ Hli) as Hinv.
  destruct (inv_stack_gray _ _ _ Hinv x Hx) as (gx & Hgx & Hle & Hxg).
  etrans; [exact Hxg|]. etrans; [|by apply rtc_once].
  eapply (inv_stack_reach _ _ _ Hinv);
    [by eapply inv_gray_stack|by apply (inv_gray_stack _ _ _ Hinv); left|].
  apply elem_of_cons in Hgx as [->|Hgx]; [done|].
  destruct (loop_gray_index gray v s0 s gx) as (_ & -> & ?); [done..|].
  rewrite (idx_Some _ _ _ (li_v_index _ _ _ _ _ Hli)). lia.
Qed.

Lemma lower_inv v n s s2 :
  lower v n s = Ok s2 →
  ∃ lv, lowlink s !! v = Some lv
    ∧ s2 = {| index := index s; stack := stack s; onstack := onstack s;
              indices := indices s;
              lowlink := <[v := lv `min` n]> (lowlink s); sccs := sccs s |}.
Proof.
  unfold lower, getitem. destruct (lowlink s !! v) as [lv|]; simpl; [|done].
  intros [= <-]. by exists lv.
Qed.

Lemma visit_edge_cloop depth gray v s0 s w ws s2 :
  dfs_complete graph depth →
  inv graph gray s0 →
  v ∉ dom (indices s0) →
  v ∈ vertices graph →
  size (unvisited graph s0) < S depth →
  loop_inv graph gray v s0 s →
  cloop graph gray v (w :: ws) s →
  edge graph v w →
  visit_edge (dfs depth graph) v s w = Ok s2 →
  cloop graph gray v ws s2.
Proof.
  intros IH Hinv0 Hnew Hv Hfuel Hli Hcl Hedge Heq.
  pose proof (li_inv _ _ _ _ _ Hli) as Hinv.
  pose proof (cl_inv _ _ _ _ _ Hcl) as Hc.
  assert (Hvidx : idx s v = index s0) by by apply idx_Some, (li_v_index _ _ _ _ _ Hli).
  assert (Hvdom : v ∈ dom (indices s)).
  { apply elem_of_dom. rewrite (li_v_index _ _ _ _ _ Hli). by eexists. }
  unfold visit_edge in Heq. case_decide as Hw.
  - (* the recursive call *)
    assert (Hreach : ∀ x, x ∈ stack s → reach graph x w).
    { intros x Hx. exact (loop_stack_reach gray v s0 s w x Hinv0 Hli Hedge Hx). }
    assert (Hsize : size (unvisited graph s) < depth).
    { pose proof (unvisited_loop _ _ _ _ _ Hli Hv Hnew). lia. }
    destruct (dfs_total graph depth (v :: gray) w s) as (sw & Hsw & Hpost);
      [done|done|by eapply edge_vertices|done|done|].
    rewrite Hsw in Heq. simpl in Heq.
    assert (Hcp : cpost graph (v :: gray) w s sw).
    { eapply IH; [done|done|done|by eapply edge_vertices|done|done|done]. }
    pose proof (post_frame _ _ _ _ _ Hpost) as Hframe.
    pose proof (post_inv _ _ _ _ _ Hpost) as Hinvw.
    destruct (post_stack _ _ _ _ _ Hpost) as (addedw & Hstackw & Haddedw).
    assert (Hnewadded : ∀ z, z ∈ addedw → z ∉ dom (indices s)).
    { intros z Hz Hzd. specialize (Haddedw z Hz).
      rewrite (frame_idx s sw) in Haddedw by done.
      pose proof (idx_lt_index graph _ s z Hinv Hzd). lia. }
    pose proof (cp_index _ _ _ _ _ Hcp) as Hwi.
    unfold getitem in Heq.
    destruct (lowlink sw !! w) as [lw|] eqn:Hlw; simpl in Heq; [|done].
    apply lower_inv in Heq as (lv & Hlv & ->).
    pose proof (cp_low_le _ _ _ _ _ Hcp lw Hlw) as Hlwle.
    split.
    + by apply cinv_lowlink, (cp_inv _ _ _ _ _ Hcp).
    + intros lv' y z. simpl. rewrite lookup_insert_eq. intros [= <-].
      change (y ∈ stack sw → idx sw v < idx sw y → edge graph y z →
              z ∈ stack sw → lv `min` lw ≤ idx sw z).
      rewrite (frame_idx s sw v) by done. rewrite Hstackw.
      intros [Hy|Hy]%elem_of_app Hlt Hyz Hz.
      * (* [y] was pushed by the call *)
        pose proof (cp_low _ _ _ _ _ Hcp lw y z Hlw) as Hlow.
        rewrite Hstackw in Hlow.
        specialize (Hlow ltac:(set_solver) (Haddedw y Hy) Hyz Hz). lia.
      * (* [y] was above [v] before the call *)
        assert (Hyd : y ∈ dom (indices s)) by by eapply inv_stack_visited.
        rewrite (frame_idx s sw y) in Hlt by done.
        apply elem_of_app in Hz as [Hz|Hz].
        -- exfalso. apply (Hnewadded z Hz).
           eapply (cinv_succ _ _ _ Hc y z); [done| |done].
           destruct (loop_stack_cases gray v s0 s y Hinv0 Hli Hy)
             as [[_ ?]|[->|(_ & ? & ?)]]; [done|lia|lia].
        -- assert (Hzd : z ∈ dom (indices s)) by by eapply inv_stack_visited.
           rewrite (frame_idx s sw z) by done.
           rewrite (frame_lowlink _ _ Hframe) in Hlv by done.
           pose proof (cl_above _ _ _ _ _ Hcl lv y z Hlv Hy Hlt Hyz Hz). lia.
    + intros lv' w'. simpl. rewrite lookup_insert_eq. intros [= <-] Hedge'.
      change (w' ∈ ws ∨ w' ∈ dom (indices sw)
                        ∧ (w' ∈ stack sw → lv `min` lw ≤ idx sw w')).
      rewrite (frame_lowlink _ _ Hframe) in Hlv by done.
      destruct (cl_self _ _ _ _ _ Hcl lv w' Hlv Hedge') as [Hin|[Hd Hst]].
      * apply elem_of_cons in Hin as [->|Hin]; [|by left]. right.
        split; [by eapply post_visited|].
        intros _. rewrite (idx_Some _ _ _ Hwi). lia.
      * right. split; [by eapply frame_dom|].
        rewrite Hstackw. intros [Hz|Hz]%elem_of_app; [by destruct (Hnewadded w')|].
        rewrite (frame_idx s sw) by done. specialize (Hst Hz). lia.
  - case_decide as Hon.
    + (* [w] is on the stack *)
      unfold getitem in Heq. rewrite (idx_lookup _ _ Hw) in Heq. simpl in Heq.
      apply lower_inv in Heq as (lv & Hlv & ->).
      split.
      * by apply cinv_lowlink.
      * intros lv' y z. simpl. rewrite lookup_insert_eq. intros [= <-] Hy Hlt Hyz Hz.
        pose proof (cl_above _ _ _ _ _ Hcl lv y z Hlv Hy Hlt Hyz Hz).
        change (lv `min` idx s w ≤ idx s z). lia.
      * intros lv' w'. simpl. rewrite lookup_insert_eq. intros [= <-] Hedge'.
        change (w' ∈ ws ∨ w' ∈ dom (indices s)
                          ∧ (w' ∈ stack s → lv `min` idx s w ≤ idx s w')).
        destruct (cl_self _ _ _ _ _ Hcl lv w' Hlv Hedge') as [Hin|[Hd Hst]].
        -- apply elem_of_cons in Hin as [->|Hin]; [|by left]. right.
           split; [done|]. intros _. lia.
        -- right. split; [done|]. intros Hz. specialize (Hst Hz). lia.
    + (* [w] has been popped *)
      injection Heq as <-. split.
      * done.
      * by eapply cl_above.
      * intros lv w' Hlv Hedge'.
        destruct (cl_self _ _ _ _ _ Hcl lv w' Hlv Hedge') as [Hin|?]; [|by right].
        apply elem_of_cons in Hin as [->|Hin]; [|by left]. right.
        split; [done|]. intros Hst. by apply (inv_onstack _ _ _ Hinv) in Hst.
Qed.

Lemma edges_cloop depth gray v s0 ws s s1 :
  dfs_complete graph depth →
  inv graph gray s0 →
  v ∉ dom (indices s0) →
  v ∈ vertices graph →
  size (unvisited graph s0) < S depth →
  (∀ w, w ∈ ws → edge graph v w) →
  loop_inv graph gray v s0 s →
  cloop graph gray v ws s →
  for_each (visit_edge (dfs depth graph) v) ws s = Ok s1 →
  loop_inv graph gray v s0 s1 ∧ cloop graph gray v [] s1.
Proof.
  intros IH Hinv0 Hnew Hv Hfuel. revert s.
  induction ws as [|w ws IHws]; intros s Hws Hli Hcl Heq; simpl in Heq.
  { by injection Heq as <-. }
  destruct (visit_edge_loop_inv graph depth gray v s0 s w) as (s2 & Hs2 & Hli2);
    [apply dfs_total|done..|apply Hws; by left|].
  rewrite Hs2 in Heq. simpl in Heq.
  apply (IHws s2); [|done| |done].
  - intros w' Hw'. apply Hws. by right.
  - apply (visit_edge_cloop depth gray v s0 s w ws s2);
      [done..|apply Hws; by left|done].
Qed.

Lemma length_two_elems (l : list string) x y : x ≠ y → x ∈ l → y ∈ l → 1 < length l.
Proof.
  intros Hne Hx Hy. destruct l as [|a [|b l]]; simpl; [|set_solver|lia].
  by apply elem_of_nil in Hx.
Qed.

Lemma reach_closed (P : string → Prop) x y :
  (∀ x z, P x → edge graph x z → P z) → P x → reach graph x y → P y.
Proof. intros HP Hx Hxy. induction Hxy; eauto. Qed.

(** The popped vertices are closed under the paths of the graph. *)
Lemma cinv_closed_reach gray s x y :
  cinv graph gray s → inv graph gray s →
  x ∈ dom (indices s) → x ∉ stack s → reach graph x y →
  y ∈ dom (indices s) ∧ y ∉ stack s.
Proof.
  intros Hc Hinv Hx Hns.
  apply (reach_closed (λ x, x ∈ dom (indices s) ∧ x ∉ stack s)); [|done].
  clear x Hx Hns. intros x z [Hx Hns] Hxz. split; [|by eapply cinv_closed].
  eapply cinv_succ; [done|done| |done].
  intros Hg. by apply Hns, (inv_gray_stack _ _ _ Hinv).
Qed.

Lemma finish_cpost gray v s0 s s' :
  inv graph gray s0 →
  v ∉ dom (indices s0) →
  loop_inv graph gray v s0 s →
  cloop graph gray v [] s →
  finish v s = Ok s' →
  cpost graph gray v s0 s'.
Proof.
  intros Hinv0 Hnew Hli Hcl Heq.
  pose proof (li_inv _ _ _ _ _ Hli) as Hinv.
  pose proof (cl_inv _ _ _ _ _ Hcl) as Hc.
  pose proof (li_v_index _ _ _ _ _ Hli) as Hvi.
  assert (Hvidx : idx s v = index s0) by by apply idx_Some.
  destruct (li_stack _ _ _ _ _ Hli) as (added & Hstack & Hadded).
  destruct (li_low _ _ _ _ _ Hli) as (lv & x0 & Hlv & Hx0 & Hx0idx & Hle & Hvx0).
  assert (Hself : ∀ w, edge graph v w →
            w ∈ dom (indices s) ∧ (w ∈ stack s → lv ≤ idx s w)).
  { intros w Hw. destruct (cl_self _ _ _ _ _ Hcl lv w Hlv Hw) as [Hin|?]; [|done].
    by apply elem_of_nil in Hin. }
  assert (Hsucc : ∀ x z, x ∈ dom (indices s) → x ∉ gray → edge graph x z →
                         z ∈ dom (indices s)).
  { intros x z Hx Hg Hxz. destruct (decide (x = v)) as [->|Hne]; [by apply Hself|].
    eapply (cinv_succ _ _ _ Hc x z); [done| |done].
    by intros [?|?]%elem_of_cons. }
  assert (Hlow : ∀ y z, y ∈ stack s → index s0 ≤ idx s y → edge graph y z →
                        z ∈ stack s → lv ≤ idx s z).
  { intros y z Hy Hyi Hyz Hz.
    destruct (loop_stack_cases gray v s0 s y Hinv0 Hli Hy) as [[? _]|[->|(_ & ? & ?)]].
    - eapply (cl_above _ _ _ _ _ Hcl lv y z); [done..|lia|done|done].
    - by apply Hself.
    - lia. }
  assert (Hold : ∀ z, z ∈ stack s0 → z ∈ stack s ∧ idx s z < index s0).
  { intros z Hz. split; [rewrite Hstack; set_solver|].
    assert (Hzd : z ∈ dom (indices s0)) by by eapply inv_stack_visited.
    rewrite (frame_idx s0 s z (li_frame _ _ _ _ _ Hli) Hzd).
    by eapply idx_lt_index. }
  assert (Hnd : NoDup (added ++ v :: stack s0)).
  { rewrite <- Hstack. by eapply inv_stack_nodup. }
  unfold finish, getitem in Heq. rewrite Hlv, Hvi in Heq. simpl in Heq.
  case_decide as Hroot.
  - (* [v] is the root of its component *)
    rewrite Hstack, pop_component_spec in Heq; simpl in Heq.
    2:{ rewrite cons_middle, app_assoc in Hnd. by apply NoDup_app in Hnd as [? _]. }
    2:{ intros x Hx. apply (inv_onstack _ _ _ Hinv). rewrite Hstack. set_solver. }
    injection Heq as <-.
    assert (Hgray : ∀ x, x ∉ stack s0 → x ∉ gray).
    { intros x Hns Hg. by apply Hns, (inv_gray_stack _ _ _ Hinv0). }
    assert (Hclosed : ∀ x z, x ∈ dom (indices s) ∧ x ∉ stack s0 → edge graph x z →
                             z ∈ dom (indices s) ∧ z ∉ stack s0).
    { intros x z [Hx Hns] Hxz. split; [by eapply Hsucc, Hxz; [|apply Hgray]|].
      intros Hz. destruct (Hold z Hz) as [Hzs Hzi].
      destruct (decide (x ∈ stack s)) as [Hxs|Hxs].
      - assert (index s0 ≤ idx s x).
        { destruct (loop_stack_cases gray v s0 s x Hinv0 Hli Hxs)
            as [[? _]|[->|(? & _)]]; [lia|lia|done]. }
        pose proof (Hlow x z Hxs ltac:(done) Hxz Hzs). lia.
      - by apply (cinv_closed _ _ _ Hc x z). }
    split; simpl.
    + split; simpl.
      * done.
      * intros x z Hx Hns Hxz. by apply (Hclosed x z).
      * intros x y Hne Hx Hns Hxy Hyx.
        destruct (decide (x ∈ stack s)) as [Hxs|Hxs].
        -- (* [x] is popped now: [y] is popped with it *)
           destruct (reach_closed _ x y Hclosed ltac:(done) Hxy) as [Hyd Hyns].
           assert (Hys : y ∈ stack s).
           { destruct (decide (y ∈ stack s)) as [|Hys]; [done|exfalso].
             by destruct (cinv_closed_reach (v :: gray) s y x Hc Hinv Hyd Hys Hyx). }
           assert (Hcomp : ∀ z, z ∈ stack s → z ∉ stack s0 → z ∈ added ++ [v]).
           { intros z. rewrite Hstack. set_solver. }
           exists (added ++ [v]).
           rewrite decide_True
             by (apply (length_two_elems _ x y); [done|by apply Hcomp..]).
           split; [set_solver|]. split; by apply Hcomp.
        -- destruct (cinv_complete _ _ _ Hc x y Hne Hx Hxs Hxy Hyx) as (c & Hcs & ?).
           exists c. split; [|done]. case_decide; [|done]. apply elem_of_app. by left.
    + done.
    + intros lv' Hlv'. assert (lv' = lv) as -> by congruence. lia.
    + intros lv' y z _ Hy Hyi. destruct (Hold y Hy) as [_ ?].
      change (index s0 ≤ idx s y) in Hyi. lia.
  - (* [v] stays on the stack *)
    injection Heq as <-. split.
    + destruct Hc as [_ Hcc Hcp]. by split.
    + done.
    + intros lv' Hlv'. assert (lv' = lv) as -> by congruence. done.
    + intros lv' y z Hlv'. assert (lv' = lv) as -> by congruence. apply Hlow.
Qed.

Lemma dfs_complete_all depth : dfs_complete graph depth.
Proof.
  induction depth as [|depth IH];
    intros gray v s0 s' Hinv Hc Hnew Hv Hreach Hfuel Heq; [lia|].
  simpl in Heq.
  destruct (edges_loop_inv graph depth gray v s0 (successors graph v) (enter v s0))
    as (s1 & Hs1 & Hli); [apply dfs_total|done..|by apply enter_loop_inv|].
  rewrite Hs1 in Heq. simpl in Heq.
  destruct (edges_cloop depth gray v s0 (successors graph v) (enter v s0) s1)
    as [_ Hcl]; [done..|by apply enter_loop_inv|by apply enter_cloop|done|].
  by eapply finish_cpost.
Qed.

(** The loop over the keys: every key is visited, and the invariants hold
    with no call in progress. *)
Lemma roots_cinv vs s s' :
  inv graph [] s → cinv graph [] s →
  (∀ v, v ∈ vs → v ∈ Dict.keys graph) →
  for_each (visit_root graph) vs s = Ok s' →
  inv graph [] s' ∧ cinv graph [] s'
  ∧ (∀ x, x ∈ dom (indices s) → x ∈ dom (indices s'))
  ∧ (∀ v, v ∈ vs → v ∈ dom (indices s')).
Proof.
  revert s. induction vs as [|v vs IH]; intros s Hinv Hc Hvs Heq; simpl in Heq.
  { injection Heq as <-. split_and!; [done..|]. by intros v ?%elem_of_nil. }
  destruct (visit_root_inv graph s v) as (s1 & Hs1 & Hinv1); [done|apply Hvs; by left|].
  rewrite Hs1 in Heq. simpl in Heq.
  assert (Hstep : cinv graph [] s1
                  ∧ (∀ x, x ∈ dom (indices s) → x ∈ dom (indices s1))
                  ∧ v ∈ dom (indices s1)).
  { unfold visit_root in Hs1. case_decide as Hnew.
    - assert (Hv : v ∈ vertices graph).
      { unfold vertices. apply elem_of_app. left. apply Hvs. by left. }
      assert (Hst : ∀ x, x ∈ stack s → reach graph x v).
      { rewrite (inv_no_gray_stack graph s Hinv). by intros x ?%elem_of_nil. }
      destruct (dfs_total graph (depth_bound graph) [] v s) as (s1' & Hs1' & Hpost);
        [done..|apply unvisited_bound|].
      assert (s1' = s1) as -> by congruence.
      pose proof (dfs_complete_all (depth_bound graph) [] v s s1 Hinv Hc Hnew Hv Hst
                    (unvisited_bound graph s) Hs1) as Hcp.
      split; [by eapply cp_inv|]. split; [|by eapply post_visited].
      intros x Hx. by eapply frame_dom, Hx; eapply post_frame.
    - injection Hs1 as <-. done. }
  destruct Hstep as (Hc1 & Hmono & Hvd).
  destruct (IH s1) as (Hinv' & Hc' & Hmono' & Hvs'); [done|done| |done|].
  { intros w Hw. apply Hvs. by right. }
  split_and!; [done|done|by auto|].
  intros w [->|Hw]%elem_of_cons; [by apply Hmono'|by apply Hvs'].
Qed.

Lemma cinv_init : cinv graph [] init.
Proof.
  split; simpl.
  - intros x z Hx. by rewrite dom_empty in Hx.
  - intros x z Hx. by rewrite dom_empty in Hx.
  - intros x y _ Hx. by rewrite dom_empty in Hx.
Qed.

(** Two different vertices on a common cycle are in one returned
    component. *)
Lemma strongly_connected_components_complete_aux :
  ∃ cycles, strongly_connected_components graph = Ok cycles
    ∧ NoDup (concat cycles)
    ∧ (∀ c, c ∈ cycles → 1 < length c)
    ∧ (∀ c x y, c ∈ cycles → x ∈ c → y ∈ c → reach graph x y)
    ∧ (∀ x y, x ≠ y → reach graph x y → reach graph y x →
              ∃ c, c ∈ cycles ∧ x ∈ c ∧ y ∈ c).
Proof.
  destruct (roots_inv graph (Dict.keys graph) init) as (s & Hs & Hinv);
    [apply inv_init|done|].
  destruct (roots_cinv (Dict.keys graph) init s) as (_ & Hc & _ & Hkeys);
    [apply inv_init|apply cinv_init|done|done|].
  exists (sccs s). split; [unfold strongly_connected_components; by rewrite Hs|].
  split; [by eapply inv_sccs_nodup|]. split; [by eapply inv_sccs_size|].
  split; [by eapply inv_sccs_conn|].
  intros x y Hne Hxy Hyx. eapply (cinv_complete _ _ _ Hc); [done| | |done|done].
  - apply Hkeys. apply rtc_inv in Hxy as [?|(z & Hxz & _)]; [done|].
    by eapply edge_key.
  - rewrite (inv_no_gray_stack graph s Hinv). by intros ?%elem_of_nil.
Qed.

End TarjanComplete.

(** * More of the program *)

(** ** Cycle detector: what is reported *)

Lemma NoDup_concat_same (ls : list (list string)) c c' x :
  NoDup (concat ls) → c ∈ ls → c' ∈ ls → x ∈ c → x ∈ c' → c = c'.
Proof.
  intros Hnd [i Hi]%list_elem_of_lookup [j Hj]%list_elem_of_lookup Hx Hx'.
  destruct (decide (i = j)) as [->|Hij]; [congruence|].
  by destruct (NoDup_concat_disjoint ls i j c c' x).
Qed.

(** X1: two different vertices that reach each other along the edges of
    the graph are members of one returned component. *)
Theorem scc_reports_common_cycle (graph : Graph) x y :
  x ≠ y → reach graph x y → reach graph y x →
  ∃ cycles c, strongly_connected_components graph = Ok cycles
    ∧ c ∈ cycles ∧ x ∈ c ∧ y ∈ c.
Proof.
  intros Hne Hxy Hyx.
  destruct (strongly_connected_components_complete_aux graph)
    as (cycles & Hcycles & _ & _ & _ & Hcomplete).
  destruct (Hcomplete x y Hne Hxy Hyx) as (c & ? & ? & ?). by exists cycles, c.
Qed.

(** The theorem on two modules that import each other. *)
Lemma scc_reports_common_cycle_witness :
  ∃ cycles c,
    strongly_connected_components [("a", {["b"]}); ("b", {["a"; "os"]})] = Ok cycles
    ∧ c ∈ cycles ∧ "a" ∈ c ∧ "b" ∈ c.
Proof.
  apply (scc_reports_common_cycle [("a", {["b"]}); ("b", {["a"; "os"]})] "a" "b").
  - discriminate.
  - apply rtc_once, edge_spec. exists {["b"]}. split; [reflexivity|set_solver].
  - apply rtc_once, edge_spec. exists {["a"; "os"]}. split; [reflexivity|set_solver].
Defined.

(** X2: every returned component is a whole strongly connected component:
    with [x] in the component, [y] is in it exactly when [x] and [y] reach
    each other. *)
Theorem scc_components_are_classes (graph : Graph) :
  ∃ cycles, strongly_connected_components graph = Ok cycles
    ∧ ∀ c x y, c ∈ cycles → x ∈ c →
        (y ∈ c ↔ reach graph x y ∧ reach graph y x).
Proof.
  destruct (strongly_connected_components_complete_aux graph)
    as (cycles & Hcycles & Hnd & _ & Hconn & Hcomplete).
  exists cycles. split; [done|]. intros c x y Hc Hx. split.
  - intros Hy. split; by eapply Hconn.
  - intros [Hxy Hyx]. destruct (decide (x = y)) as [<-|Hne]; [done|].
    destruct (Hcomplete x y Hne Hxy Hyx) as (c' & Hc' & Hx' & Hy').
    by rewrite (NoDup_concat_same cycles c c' x).
Qed.

(** X3: no component is returned exactly when no two different vertices
    reach each other. *)
Theorem scc_empty_iff_acyclic (graph : Graph) :
  strongly_connected_components graph = Ok []
  ↔ ∀ x y, reach graph x y → reach graph y x → x = y.
Proof.
  destruct (strongly_connected_components_complete_aux graph)
    as (cycles & Hcycles & Hnd & Hsize & Hconn & Hcomplete).
  rewrite Hcycles. split.
  - intros [= ->] x y Hxy Hyx. destruct (decide (x = y)) as [|Hne]; [done|].
    destruct (Hcomplete x y Hne Hxy Hyx) as (c & Hc & _). by apply elem_of_nil in Hc.
  - intros Hacyclic. f_equal. destruct cycles as [|c cycles]; [done|exfalso].
    assert (Hc : c ∈ c :: cycles) by by left.
    pose proof (Hsize c Hc) as Hlen. destruct c as [|x c]; [simpl in Hlen; lia|].
    destruct (component_cycle graph ((x :: c) :: cycles) (x :: c) x)
      as (y & _ & Hne & Hxy & Hyx & _); [done..|by left|].
    by apply Hne, eq_sym, Hacyclic.
Qed.

(** ** Module map and graph *)

Section DictOrder.
Context {V : Type}.
Implicit Types (d l : list (string * V)) (k : string) (v : V).

Lemma dict_set_new d k v : k ∉ Dict.keys d → Dict.set k v d = d ++ [(k, v)].
Proof.
  unfold Dict.keys. induction d as [|[k0 v0] d IH]; simpl; [done|].
  rewrite not_elem_of_cons. intros [Hne Hk]. rewrite decide_False by done.
  by rewrite IH.
Qed.

Lemma dict_keys_set d k v :
  Dict.keys (Dict.set k v d)
  = if decide (k ∈ Dict.keys d) then Dict.keys d else Dict.keys d ++ [k].
Proof.
  unfold Dict.keys. induction d as [|[k0 v0] d IH].
  - case_decide as Hin; [by apply elem_of_nil in Hin|done].
  - cbn [Dict.set fmap list_fmap fst]. destruct (decide (k0 = k)) as [->|Hne].
    + destruct (decide (k ∈ k :: d.*1)) as [Hin|Hin]; [done|]. destruct Hin. by left.
    + cbn [fmap list_fmap fst]. rewrite IH.
      destruct (decide (k ∈ d.*1)) as [Hin|Hin];
        destruct (decide (k ∈ k0 :: d.*1)) as [Hin'|Hin']; try done.
      * destruct Hin'. by right.
      * apply elem_of_cons in Hin'. naive_solver.
Qed.

Lemma dict_set_NoDup d k v : NoDup (Dict.keys d) → NoDup (Dict.keys (Dict.set k v d)).
Proof.
  intros Hnd. rewrite dict_keys_set. case_decide; [done|].
  apply NoDup_app. split; [done|]. split; [|apply NoDup_singleton].
  intros x Hx ->%list_elem_of_singleton. done.
Qed.

Lemma dict_update_NoDup l d : NoDup (Dict.keys d) → NoDup (Dict.keys (Dict.update l d)).
Proof.
  revert d. induction l as [|[k v] l IH]; intros d Hnd; [done|].
  apply IH. by apply dict_set_NoDup.
Qed.

Lemma dict_update_get_other l d k :
  k ∉ l.*1 → Dict.get (Dict.update l d) k = Dict.get d k.
Proof.
  revert d. induction l as [|[k0 v0] l IH]; intros d; [done|].
  rewrite fmap_cons, not_elem_of_cons. intros [Hne Hk].
  change (Dict.update ((k0, v0) :: l) d) with (Dict.update l (Dict.set k0 v0 d)).
  rewrite IH by done. rewrite dict_get_set. by rewrite decide_False by done.
Qed.

(** The last item of a key is the one read back after [update]. *)
Lemma dict_update_get_last l1 l2 d k v :
  k ∉ l2.*1 → Dict.get (Dict.update (l1 ++ (k, v) :: l2) d) k = Some v.
Proof.
  intros Hk. rewrite dict_update_app.
  change (Dict.update ((k, v) :: l2) ?d') with (Dict.update l2 (Dict.set k v d')).
  rewrite dict_update_get_other by done. apply dict_get_set_eq.
Qed.

Lemma dict_get_elem_of d k v : NoDup (Dict.keys d) → (k, v) ∈ d → Dict.get d k = Some v.
Proof.
  unfold Dict.keys. induction d as [|[k0 v0] d IH]; simpl; [by intros _ ?%elem_of_nil|].
  rewrite NoDup_cons, elem_of_cons. intros [Hk0 Hnd] [[= -> ->]|Hin].
  - by rewrite decide_True.
  - rewrite decide_False; [by apply IH|].
    intros ->. apply Hk0, list_elem_of_fmap. by exists (k, v).
Qed.
End DictOrder.

Lemma dict_get_fmap {V W} (f : V → W) (d : list (string * V)) k :
  Dict.get (prod_map id f <$> d) k = f <$> Dict.get d k.
Proof.
  induction d as [|[k0 v0] d IH]; simpl; [done|]. by case_decide.
Qed.

(** The graph of a module map with distinct keys: the same keys in the
    same order, each with the set of its imports. *)
Lemma build_graph_fmap (sc : ImportScanner) :
  NoDup (Dict.keys (module_info sc)) →
  build_graph sc
  = prod_map id (λ r : ModuleRecord, list_to_set (imports r)) <$> module_info sc.
Proof.
  unfold build_graph.
  generalize (module_info sc). intros mi Hnd.
  assert (Hgen : ∀ acc : Graph,
    (∀ k, k ∈ Dict.keys acc → k ∉ Dict.keys mi) →
    fold_left (λ graph item, Dict.set item.1 (list_to_set (imports item.2)) graph) mi acc
    = acc ++ (prod_map id (λ r : ModuleRecord, list_to_set (imports r)) <$> mi)).
  { clear sc. induction mi as [|[k r] mi IH]; intros acc Hacc; simpl.
    - by rewrite app_nil_r.
    - unfold Dict.keys in Hnd. simpl in Hnd. apply NoDup_cons in Hnd as [Hk Hnd].
      rewrite IH; [| done |].
      + rewrite dict_set_new; [by rewrite <- app_assoc|].
        intros Hin. apply (Hacc k Hin). by left.
      + intros k'. rewrite dict_keys_set. case_decide.
        * intros Hin Hk'. apply (Hacc k' Hin). by right.
        * intros [Hin| ->%list_elem_of_singleton]%elem_of_app; [|done].
          intros Hk'. apply (Hacc k' Hin). by right. }
  rewrite Hgen; [done|]. by intros k ?%elem_of_nil.
Qed.

(** The edges of the graph of a module map with distinct keys. *)
Lemma build_graph_edge (sc : ImportScanner) v w :
  NoDup (Dict.keys (module_info sc)) →
  edge (build_graph sc) v w
  ↔ ∃ r, Dict.get (module_info sc) v = Some r ∧ w ∈ imports r.
Proof.
  intros Hnd. rewrite (build_graph_fmap sc Hnd), edge_spec, dict_get_fmap.
  destruct (Dict.get (module_info sc) v) as [r|]; simpl.
  - split.
    + intros (ws & [= <-] & Hw). exists r. split; [done|]. set_solver.
    + intros (r' & [= <-] & Hw). eexists. split; [done|]. set_solver.
  - split; [by intros (? & ? & _)|by intros (? & ? & _)].
Qed.

(** X4: for a module map with distinct keys, the graph has the same keys
    in the same order, the set under a key holds exactly the import
    targets of the record of that key, and the edges are the pairs of a
    module and one of its import targets. *)
Theorem build_graph_spec (sc : ImportScanner) :
  NoDup (Dict.keys (module_info sc)) →
  Dict.keys (build_graph sc) = Dict.keys (module_info sc)
  ∧ (∀ k, Dict.get (build_graph sc) k
          = (λ r : ModuleRecord, list_to_set (imports r)) <$> Dict.get (module_info sc) k)
  ∧ (∀ v w, edge (build_graph sc) v w
            ↔ ∃ r, Dict.get (module_info sc) v = Some r ∧ w ∈ imports r).
Proof.
  intros Hnd. split_and!; [| |intros v w; by apply build_graph_edge].
  - rewrite (build_graph_fmap sc Hnd).
    unfold Dict.keys. rewrite <- list_fmap_compose. by apply list_fmap_ext.
  - intros k. rewrite (build_graph_fmap sc Hnd). apply dict_get_fmap.
Qed.

(** The theorem on a module map of two modules, with an import repeated. *)
Lemma build_graph_spec_witness :
  Dict.keys (build_graph
    {| project_root := ["/"; "proj"];
       module_info := [("b", {| path := ["b.py"]; imports := ["a"; "os"; "a"] |});
                       ("a", {| path := ["a.py"]; imports := [] |})] |})
  = ["b"; "a"].
Proof.
  destruct (build_graph_spec
    {| project_root := ["/"; "proj"];
       module_info := [("b", {| path := ["b.py"]; imports := ["a"; "os"; "a"] |});
                       ("a", {| path := ["a.py"]; imports := [] |})] |})
    as (Hkeys & _).
  - apply (bool_decide_unpack _). vm_compute. exact I.
  - exact Hkeys.
Defined.

(** The module map of a scan, as a dictionary filled from the records of
    the walked files. *)
Lemma scan_module_info at_root self :
  ∃ sc, scan at_root self = Ok sc
    ∧ project_root sc = project_root self
    ∧ module_info sc
      = Dict.update
          (walked_modules (project_root self) (walk (project_root self) at_root)) [].
Proof. eexists. split; [apply scan_spec|done]. Qed.

(** X5: the module map of a scan has pairwise distinct keys, and when
    several walked files have the same FQN the record kept under it is the
    record of the last of them in the order of the walk. *)
Theorem scan_last_file_wins at_root self :
  ∃ sc, scan at_root self = Ok sc
    ∧ NoDup (Dict.keys (module_info sc))
    ∧ ∀ before fqn r after,
        walked_modules (project_root self) (walk (project_root self) at_root)
        = before ++ (fqn, r) :: after →
        fqn ∉ after.*1 →
        Dict.get (module_info sc) fqn = Some r.
Proof.
  destruct (scan_module_info at_root self) as (sc & Hsc & _ & Hmi).
  exists sc. split; [done|]. rewrite Hmi. split.
  - apply dict_update_NoDup. constructor.
  - intros before fqn r after -> Hlast. by apply dict_update_get_last.
Qed.

(** ** Cycles of a scan *)

Lemma reach_first_other (graph : Graph) x y :
  reach graph x y → x ≠ y → ∃ z, z ≠ x ∧ edge graph x z ∧ reach graph z y.
Proof.
  induction 1 as [x|x z y Hxz Hzy IH]; [done|]. intros Hne.
  destruct (decide (z = x)) as [->|Hzx]; [by apply IH|].
  by exists z.
Qed.

(** The returned components are the strongly connected components of more
    than one vertex, and every member has an edge to another member. *)
Lemma strongly_connected_components_classes (graph : Graph) :
  ∃ cycles, strongly_connected_components graph = Ok cycles
    ∧ NoDup (concat cycles)
    ∧ (∀ c, c ∈ cycles → (1 < length c)%nat)
    ∧ (∀ c x y, c ∈ cycles → x ∈ c → (y ∈ c ↔ reach graph x y ∧ reach graph y x))
    ∧ (∀ x y, x ≠ y → reach graph x y → reach graph y x →
         ∃ c, c ∈ cycles ∧ x ∈ c ∧ y ∈ c)
    ∧ (∀ c x, c ∈ cycles → x ∈ c → ∃ z, z ∈ c ∧ z ≠ x ∧ edge graph x z).
Proof.
  destruct (strongly_connected_components_complete_aux graph)
    as (cycles & Hcycles & Hnd & Hsize & Hconn & Hcomplete).
  exists cycles. split; [done|].
  assert (Hclass : ∀ c x y, c ∈ cycles → x ∈ c →
            (y ∈ c ↔ reach graph x y ∧ reach graph y x)).
  { intros c x y Hc Hx. split.
    - intros Hy. split; by eapply Hconn.
    - intros [Hxy Hyx]. destruct (decide (x = y)) as [<-|Hne]; [done|].
      destruct (Hcomplete x y Hne Hxy Hyx) as (c' & Hc' & Hx' & Hy').
      by rewrite (NoDup_concat_same cycles c c' x). }
  split_and!; [done..|].
  intros c x Hc Hx.
  destruct (component_cycle graph cycles c x)
    as (y & Hy & Hne & Hxy & Hyx & _); [done..|].
  destruct (reach_first_other graph x y Hxy) as (z & Hzx & Hxz & Hzy); [done|].
  exists z. split; [|done]. apply (Hclass c x z Hc Hx). split.
  - by apply rtc_once.
  - by etrans.
Qed.

(** The cycles of a module map with distinct keys. *)
Lemma find_cycles_spec (sc : ImportScanner) :
  NoDup (Dict.keys (module_info sc)) →
  ∃ cycles, find_cycles sc = Ok cycles
    ∧ (∀ c m, c ∈ cycles → m ∈ c →
         ∃ r m', Dict.get (module_info sc) m = Some r
                 ∧ m' ∈ imports r ∧ m' ∈ c ∧ m' ≠ m)
    ∧ (∀ m1 m2 r1 r2, m1 ≠ m2 →
         Dict.get (module_info sc) m1 = Some r1 → m2 ∈ imports r1 →
         Dict.get (module_info sc) m2 = Some r2 → m1 ∈ imports r2 →
         ∃ c, c ∈ cycles ∧ m1 ∈ c ∧ m2 ∈ c).
Proof.
  intros Hnd. unfold find_cycles.
  pose proof (λ v w, build_graph_edge sc v w Hnd) as Hedge.
  destruct (strongly_connected_components_classes (build_graph sc))
    as (cycles & Hcycles & _ & _ & _ & Hcomplete & Hstep).
  exists cycles. split_and!; [done| |].
  - intros c m Hc Hm. destruct (Hstep c m Hc Hm) as (z & Hz & Hne & Hmz).
    apply Hedge in Hmz as (r & Hr & Hzr). by exists r, z.
  - intros m1 m2 r1 r2 Hne Hr1 H12 Hr2 H21.
    apply Hcomplete; [done|apply rtc_once, Hedge; eauto..].
Qed.

(** X6: after a scan, every member of a reported cycle is a scanned module
    whose record imports another member of the same cycle, and two
    different scanned modules each of which imports the other are
    reported in one cycle. *)
Theorem find_cycles_of_scan at_root self :
  ∃ sc cycles, scan at_root self = Ok sc ∧ find_cycles sc = Ok cycles
    ∧ (∀ c m, c ∈ cycles → m ∈ c →
         ∃ r m', Dict.get (module_info sc) m = Some r
                 ∧ m' ∈ imports r ∧ m' ∈ c ∧ m' ≠ m)
    ∧ (∀ m1 m2 r1 r2, m1 ≠ m2 →
         Dict.get (module_info sc) m1 = Some r1 → m2 ∈ imports r1 →
         Dict.get (module_info sc) m2 = Some r2 → m1 ∈ imports r2 →
         ∃ c, c ∈ cycles ∧ m1 ∈ c ∧ m2 ∈ c).
Proof.
  destruct (scan_module_info at_root self) as (sc & Hsc & _ & Hmi).
  destruct (find_cycles_spec sc) as (cycles & Hcycles & Hmem & Hmutual).
  { rewrite Hmi. apply dict_update_NoDup. constructor. }
  by exists sc, cycles.
Qed.

(** X7: scanning again does not accumulate: the module map of a scan does
    not depend on the module map before it, and a scan of the same tree
    by the scanner it returned gives the same scanner. *)
Theorem scan_again at_root self :
  ∃ sc, scan at_root self = Ok sc
    ∧ scan at_root (new_scanner (project_root self)) = Ok sc
    ∧ scan at_root sc = Ok sc.
Proof.
  eexists. split; [apply scan_spec|]. split; by rewrite scan_spec.
Qed.

(** ** Names with and without dots *)

Lemma string_app_nil (b : string) : ("" ++ b)%string = b.
Proof. done. Qed.

Lemma string_app_cons x (a b : string) : (String x a ++ b)%string = String x (a ++ b).
Proof. done. Qed.

Lemma split_app_sep c p rest :
  Py.rfind c p = None → Py.split c (p ++ String c rest) = p :: Py.split c rest.
Proof.
  induction p as [|a p IH]; [rewrite string_app_nil|rewrite string_app_cons]; simpl.
  - intros _. by rewrite Ascii.eqb_refl.
  - destruct (Py.rfind c p); [done|].
    destruct (Ascii.eqb a c); [done|]. intros _. by rewrite IH.
Qed.

Lemma join_cons sep p q ps :
  Py.join sep (p :: q :: ps) = (p ++ sep ++ Py.join sep (q :: ps))%string.
Proof. done. Qed.

(** Splitting at the dots gives back the parts joined by dots, when there
    is a part and no part has a dot. *)
Lemma split_join parts :
  parts ≠ [] → Forall (λ p, Py.rfind "." p = None) parts →
  Py.split "." (Py.join "." parts) = parts.
Proof.
  intros Hne Hparts. induction Hparts as [|p ps Hp Hps IH]; [done|].
  destruct ps as [|q ps].
  - by apply split_no_sep.
  - rewrite join_cons.
    change ("." ++ Py.join "." (q :: ps))%string with (String "." (Py.join "." (q :: ps))).
    rewrite split_app_sep by done. by rewrite IH.
Qed.

Lemma package_of_join parts name :
  Forall (λ p, Py.rfind "." p = None) (parts ++ [name]) →
  package_of (Py.join "." (parts ++ [name])) = parts.
Proof.
  intros Hparts. unfold package_of. rewrite split_join; [|by destruct parts|done].
  apply removelast_last.
Qed.

(** The package parts at every level. *)
Lemma pkg_parts_level current_fqn level :
  pkg_parts current_fqn level
  = drop_trailing (Z.to_nat (level - 1)) (package_of current_fqn).
Proof.
  unfold pkg_parts. rewrite pkg_parts_package_of.
  assert (H0 : ∀ l : list string, drop_trailing 0 l = l).
  { intros l. unfold drop_trailing. by rewrite drop_0, reverse_involutive. }
  destruct (Z.eqb_spec level 0) as [->|]; [by rewrite H0|].
  destruct (Z.ltb_spec 1 level).
  - rewrite slice_to_neg by lia. f_equal. lia.
  - replace (Z.to_nat (level - 1)) with 0%nat by lia. by rewrite H0.
Qed.

Lemma drop_trailing_take {A} (n : nat) (l : list A) :
  drop_trailing n l = take (length l - n) l.
Proof. unfold drop_trailing. by rewrite drop_reverse, reverse_involutive. Qed.

Lemma rfind_app c a b :
  Py.rfind c (a ++ b)
  = match Py.rfind c b with
    | Some i => Some (String.length a + i)%nat
    | None => Py.rfind c a
    end.
Proof.
  induction a as [|x a IH]; [rewrite string_app_nil|rewrite string_app_cons]; simpl.
  - by destruct (Py.rfind c b).
  - rewrite IH. by destruct (Py.rfind c b).
Qed.

Lemma string_length_app (a b : string) :
  String.length (a ++ b) = (String.length a + String.length b)%nat.
Proof.
  induction a as [|x a IH]; [done|]. rewrite string_app_cons. simpl. by rewrite IH.
Qed.

Lemma substring_app_prefix (a b : string) :
  String.substring 0 (String.length a) (a ++ b) = a.
Proof.
  induction a as [|x a IH]; [rewrite string_app_nil|rewrite string_app_cons]; simpl.
  - by destruct b.
  - by rewrite IH.
Qed.

Lemma substring_app_suffix (a b : string) :
  String.substring (String.length a) (String.length b) (a ++ b) = b.
Proof.
  induction a as [|x a IH]; [rewrite string_app_nil|by rewrite string_app_cons].
  simpl. induction b as [|y b IH]; simpl; [done|]. by rewrite IH.
Qed.

(** The stem of [n.py] is [n], for a name [n] that is not empty. *)
Lemma stem_py n : n ≠ "" → stem (n +:+ ".py") = n.
Proof.
  intros Hn. unfold stem. rewrite rfind_app. simpl Py.rfind.
  rewrite string_length_app, Nat.add_0_r. simpl String.length.
  destruct n as [|x n]; [done|]. simpl String.length.
  destruct (Nat.ltb_spec 0 (S (String.length n))); [|lia].
  destruct (Nat.ltb_spec (S (String.length n)) (S (String.length n) + 3 - 1)); [|lia].
  simpl andb. cbv iota.
  apply (substring_app_prefix (String x n) ".py").
Qed.

Lemma endswith_py n : Py.endswith (n +:+ ".py") ".py" = true.
Proof.
  unfold Py.endswith. rewrite string_length_app. simpl String.length.
  destruct (Nat.leb_spec 3 (String.length n + 3)); [|lia].
  replace (String.length n + 3 - 3)%nat with (String.length n) by lia.
  pose proof (substring_app_suffix n ".py") as Hsub. simpl String.length in Hsub.
  by rewrite Hsub.
Qed.

Lemma relative_to_Ok file_path root rel :
  relative_to file_path root = Ok rel ↔ file_path = root ++ rel.
Proof.
  split; [|intros ->; apply relative_to_app].
  revert file_path. induction root as [|r root IH]; intros file_path; simpl.
  - by intros [= ->].
  - destruct file_path as [|f file_path]; [done|].
    case_decide as Hf; [|done]. subst f. by intros ->%IH.
Qed.

Lemma relative_to_exn file_path root e :
  relative_to file_path root = Raise e → e = ValueError.
Proof.
  revert file_path. induction root as [|r root IH]; intros file_path; simpl; [done|].
  destruct file_path as [|f file_path]; [congruence|].
  case_decide; [apply IH|congruence].
Qed.

(** X8: at level 0, at level 1 and at a negative level the name of a
    from-import is resolved in the package of the importing module: the
    package parts are those of the importing module, whole. *)
Theorem resolve_from_import_own_package current_fqn level module :
  level ≤ 1 →
  resolve_from_import current_fqn level module
  = Py.join "." (package_of current_fqn ++ module_part module).
Proof.
  intros Hlevel. rewrite resolve_from_import_join, pkg_parts_level.
  replace (Z.to_nat (level - 1)) with 0%nat by lia.
  unfold drop_trailing. by rewrite drop_0, reverse_involutive.
Qed.

(** The theorem at level 0 and at level -1. *)
Lemma resolve_from_import_own_package_witness :
  resolve_from_import "pkg.sub.mod" 0 (Some "x") = "pkg.sub.x"
  ∧ resolve_from_import "pkg.sub.mod" (-1) None = "pkg.sub".
Proof.
  split.
  - rewrite (resolve_from_import_own_package "pkg.sub.mod" 0 (Some "x")) by lia.
    reflexivity.
  - rewrite (resolve_from_import_own_package "pkg.sub.mod" (-1) None) by lia.
    reflexivity.
Defined.

(** X9: for an importing module given by its parts, none with a dot, a
    from-import at level [k + 1] is resolved to the parts of its package
    without the last [k] of them (to none when [k] is their number or
    more), followed by the module name when there is one, joined by
    dots. *)
Theorem resolve_from_import_parts parts name k module :
  Forall (λ p, Py.rfind "." p = None) (parts ++ [name]) →
  resolve_from_import (Py.join "." (parts ++ [name])) (Z.of_nat (S k)) module
  = Py.join "." (take (length parts - k) parts ++ module_part module).
Proof.
  intros Hparts.
  rewrite resolve_from_import_join, pkg_parts_level, package_of_join by done.
  rewrite drop_trailing_take. do 3 f_equal. lia.
Qed.

(** The theorem at [from ..other import f] in the module [a.b.c.mod]. *)
Lemma resolve_from_import_parts_witness :
  resolve_from_import "a.b.c.mod" 2 (Some "other") = "a.b.other".
Proof.
  apply (resolve_from_import_parts ["a"; "b"; "c"] "mod" 1 (Some "other")).
  repeat constructor.
Defined.

(** X10: [to_fqn] returns the directories of the file under the project
    root and the stem of its name, joined by dots, and raises [ValueError]
    in every other case: when the path is the project root itself or is
    not under it. *)
Theorem to_fqn_cases project_root file_path :
  (∀ dirs name, file_path = project_root ++ dirs ++ [name] →
     to_fqn project_root file_path = Ok (Py.join "." (dirs ++ [stem name])))
  ∧ ((∀ dirs name, file_path ≠ project_root ++ dirs ++ [name]) →
     to_fqn project_root file_path = Raise ValueError).
Proof.
  split; [intros dirs name ->; apply to_fqn_under_root|].
  intros Hnot. unfold to_fqn.
  destruct (relative_to file_path project_root) as [rel|e] eqn:Hrel; simpl.
  - apply relative_to_Ok in Hrel as ->.
    destruct rel as [|x rel _] using rev_ind; [done|]. by destruct (Hnot rel x).
  - by rewrite (relative_to_exn _ _ _ Hrel).
Qed.

(** X11: the FQN of a file [n.py] whose directories under the project root
    and whose name [n] have no dot splits at the dots into these
    directories and [n]; the file passes the test of the scan on its
    name. *)
Theorem to_fqn_split project_root dirs n :
  n ≠ "" →
  Forall (λ p, Py.rfind "." p = None) (dirs ++ [n]) →
  Py.endswith (n +:+ ".py") ".py" = true
  ∧ ∃ fqn, to_fqn project_root (project_root ++ dirs ++ [n +:+ ".py"]) = Ok fqn
      ∧ Py.split "." fqn = dirs ++ [n]
      ∧ package_of fqn = dirs.
Proof.
  intros Hn Hparts. split; [apply endswith_py|].
  eexists. split; [apply to_fqn_under_root|]. rewrite stem_py by done.
  split; [|by apply package_of_join].
  apply split_join; [by destruct dirs|done].
Qed.

(** The theorem at the file [pkg/sub/mod.py]. *)
Lemma to_fqn_split_witness :
  ∃ fqn, to_fqn ["/"; "proj"] ["/"; "proj"; "pkg"; "sub"; "mod.py"] = Ok fqn
    ∧ Py.split "." fqn = ["pkg"; "sub"; "mod"]
    ∧ package_of fqn = ["pkg"; "sub"].
Proof.
  destruct (to_fqn_split ["/"; "proj"] ["pkg"; "sub"] "mod") as [_ H].
  - discriminate.
  - repeat constructor.
  - exact H.
Defined.

(** X12: a from-import at level [k + 1] with module name [m], in the file
    [n.py] in the directories [dirs] under the project root, is resolved to
    the FQN of the file [m.py] in [dirs] without its last [k] directories,
    when no directory and neither [n] nor [m] is empty or has a dot. *)
Theorem relative_import_resolves_to_file project_root dirs n k m :
  n ≠ "" → m ≠ "" →
  Forall (λ p, Py.rfind "." p = None) (dirs ++ [n]) →
  ∃ fqn, to_fqn project_root (project_root ++ dirs ++ [n +:+ ".py"]) = Ok fqn
    ∧ to_fqn project_root
        (project_root ++ take (length dirs - k) dirs ++ [m +:+ ".py"])
      = Ok (resolve_from_import fqn (Z.of_nat (S k)) (Some m)).
Proof.
  intros Hn Hm Hparts.
  eexists. split; [apply to_fqn_under_root|].
  rewrite to_fqn_under_root, !stem_py by done.
  rewrite resolve_from_import_join, pkg_parts_level, package_of_join by done.
  rewrite drop_trailing_take. unfold module_part. destruct m; [done|].
  simpl Py.truthy. cbv iota. do 4 f_equal. lia.
Qed.

(** The theorem at [from ..util import f] in [pkg/sub/mod.py]. *)
Lemma relative_import_resolves_to_file_witness :
  ∃ fqn, to_fqn ["/"; "proj"] ["/"; "proj"; "pkg"; "sub"; "mod.py"] = Ok fqn
    ∧ to_fqn ["/"; "proj"] ["/"; "proj"; "pkg"; "util.py"]
      = Ok (resolve_from_import fqn 2 (Some "util")).
Proof.
  apply (relative_import_resolves_to_file ["/"; "proj"] ["pkg"; "sub"] "mod" 1 "util").
  - discriminate.
  - discriminate.
  - repeat constructor.
Defined.

(** ** Presentation *)

Lemma NoDup_concat_list (ls : list (list string)) :
  NoDup (concat ls) → (∀ c, c ∈ ls → c ≠ []) → NoDup ls.
Proof.
  intros Hnd Hne. apply NoDup_alt. intros i j c Hi Hj.
  destruct (decide (i = j)) as [|Hij]; [done|exfalso].
  destruct c as [|x c].
  - by apply (Hne []); [eapply list_elem_of_lookup_2|].
  - destruct (NoDup_concat_disjoint ls i j (x :: c) (x :: c) x);
      [done..|by left|by left].
Qed.

Lemma elem_of_cycle_sets cycles (cycle : gset string) :
  cycle ∈ cycle_sets cycles ↔ ∃ c, c ∈ cycles ∧ cycle = list_to_set c.
Proof.
  unfold cycle_sets. rewrite elem_of_list_to_set, list_elem_of_fmap. naive_solver.
Qed.

(** The set of the cycles has as many members as the list has cycles. *)
Lemma size_cycle_sets cycles :
  NoDup (concat cycles) → (∀ c, c ∈ cycles → (1 < length c)%nat) →
  size (cycle_sets cycles) = length cycles.
Proof.
  intros Hnd Hsize. unfold cycle_sets.
  rewrite size_list_to_set, length_fmap; [done|].
  apply NoDup_fmap_2_strong.
  - intros c c' Hc Hc' Heq.
    destruct c as [|x c]; [apply Hsize in Hc; simpl in Hc; lia|].
    apply (NoDup_concat_same cycles _ _ x Hnd Hc Hc'); [by left|].
    apply (elem_of_list_to_set (C := gset string)). rewrite <- Heq. set_solver.
  - apply NoDup_concat_list; [done|].
    intros c Hc ->. apply Hsize in Hc. simpl in Hc. lia.
Qed.

Lemma node_color_cases cycles module :
  (node_color cycles module = "red" ∧ ∃ cycle, cycle ∈ cycles ∧ module ∈ cycle)
  ∨ (node_color cycles module = "gray" ∧ ∀ cycle, cycle ∈ cycles → module ∉ cycle).
Proof.
  unfold node_color.
  assert (Hiff : ∀ cycle : gset string, cycle ∈ cycles ↔ cycle ∈ elements cycles)
    by (intros cycle; by rewrite elem_of_elements).
  setoid_rewrite Hiff. clear Hiff. generalize (elements cycles). intros l.
  induction l as [|cycle l IH] using rev_ind.
  - right. split; [done|]. intros cy Hcy. by apply elem_of_nil in Hcy.
  - rewrite fold_left_app. cbn [fold_left].
    destruct (decide (module ∈ cycle)) as [Hin|Hin].
    + left. split; [done|]. exists cycle. split; [|done]. set_solver.
    + destruct IH as [[-> (cy & Hcy & Hm)]|[-> Hno]].
      * left. split; [done|]. exists cy. split; [|done]. set_solver.
      * right. split; [done|].
        intros cy Hcy. apply elem_of_app in Hcy as [Hcy|Hcy]; [by apply Hno|].
        apply list_elem_of_singleton in Hcy. by subst cy.
Qed.

Lemma node_color_red cycles module :
  node_color (cycle_sets cycles) module = "red" ↔ ∃ c, c ∈ cycles ∧ module ∈ c.
Proof.
  destruct (node_color_cases (cycle_sets cycles) module)
    as [[-> (cy & Hcy & Hm)]|[-> Hno]].
  - split; [intros _|done]. apply elem_of_cycle_sets in Hcy as (c & Hc & ->).
    exists c. split; [done|]. by apply elem_of_list_to_set in Hm.
  - split; [done|]. intros (c & Hc & Hm). destruct (Hno (list_to_set c)).
    + apply elem_of_cycle_sets. by exists c.
    + by apply elem_of_list_to_set.
Qed.

Lemma in_cycle_true cycles module :
  in_cycle (cycle_sets cycles) module = true ↔ ∃ c, c ∈ cycles ∧ module ∈ c.
Proof.
  unfold in_cycle. rewrite existsb_exists. split.
  - intros (cy & Hcy & Hm). apply list_elem_of_In, elem_of_elements in Hcy.
    apply elem_of_cycle_sets in Hcy as (c & Hc & ->).
    apply bool_decide_eq_true in Hm. exists c. split; [done|].
    by apply elem_of_list_to_set in Hm.
  - intros (c & Hc & Hm). exists (list_to_set c). split.
    + apply list_elem_of_In, elem_of_elements, elem_of_cycle_sets. by exists c.
    + apply bool_decide_eq_true. by apply elem_of_list_to_set.
Qed.

Lemma elem_of_node_calls cycles mi call :
  call ∈ node_calls cycles mi
  ↔ ∃ k r, (k, r) ∈ mi ∧ call = add_node k k (path r) (node_color cycles k).
Proof.
  unfold node_calls. rewrite list_elem_of_fmap. split.
  - intros ([k r] & -> & Hin). by exists k, r.
  - intros (k & r & Hin & ->). by exists (k, r).
Qed.

Lemma elem_of_edge_calls mi graph call :
  call ∈ edge_calls mi graph
  ↔ ∃ src dests dst, (src, dests) ∈ graph ∧ dst ∈ dests ∧ dst ∈ Dict.keys mi
                     ∧ call = add_edge src dst.
Proof.
  unfold edge_calls. rewrite elem_of_flat_map. split.
  - intros ([src dests] & Hin & Hcall). apply elem_of_flat_map in Hcall
      as (dst & Hdst & Hcall). apply elem_of_elements in Hdst.
    case_decide; [|by apply elem_of_nil in Hcall].
    apply list_elem_of_singleton in Hcall. by exists src, dests, dst.
  - intros (src & dests & dst & Hin & Hdst & Hkey & ->).
    exists (src, dests). split; [done|]. apply elem_of_flat_map.
    exists dst. split; [by apply elem_of_elements|].
    rewrite decide_True by done. by left.
Qed.

Lemma dict_get_elem_of_1 {V} (d : list (string * V)) k v :
  Dict.get d k = Some v → (k, v) ∈ d.
Proof.
  induction d as [|[k0 v0] d IH]; simpl; [done|].
  case_decide as Hk; [intros [= ->]; subst; by left|]. intros ?%IH. by right.
Qed.

(** X13: for a module map with distinct keys, [build_interactive_graph]
    adds one node per module, in the order of the module map, with the
    module name as label and the path of the file as title, and then the
    edges: an edge from [src] to [dst] is added exactly when the record of
    [src] imports [dst] and [dst] is a key of the module map, so both ends
    of every edge are nodes added before it. *)
Theorem build_interactive_graph_calls (scanner : ImportScanner) :
  NoDup (Dict.keys (module_info scanner)) →
  ∃ cycles nodes edges,
    find_cycles scanner = Ok cycles
    ∧ build_interactive_graph scanner = Ok (nodes ++ edges)
    ∧ nodes = (λ item, add_node item.1 item.1 (path item.2)
                         (node_color (cycle_sets cycles) item.1))
              <$> module_info scanner
    ∧ (∀ call, call ∈ edges ↔
         ∃ src dst r, call = add_edge src dst
           ∧ Dict.get (module_info scanner) src = Some r
           ∧ dst ∈ imports r ∧ dst ∈ Dict.keys (module_info scanner))
    ∧ (∀ src dst, add_edge src dst ∈ edges →
         ∃ r r', add_node src src (path r) (node_color (cycle_sets cycles) src) ∈ nodes
               ∧ add_node dst dst (path r') (node_color (cycle_sets cycles) dst) ∈ nodes).
Proof.
  intros Hnd. unfold build_interactive_graph.
  destruct (find_cycles_spec scanner Hnd) as (cycles & Hcycles & _).
  rewrite Hcycles. simpl.
  exists cycles, (node_calls (cycle_sets cycles) (module_info scanner)),
    (edge_calls (module_info scanner) (build_graph scanner)).
  assert (Hedges : ∀ call,
    call ∈ edge_calls (module_info scanner) (build_graph scanner) ↔
    ∃ src dst r, call = add_edge src dst
      ∧ Dict.get (module_info scanner) src = Some r
      ∧ dst ∈ imports r ∧ dst ∈ Dict.keys (module_info scanner)).
  { intros call. rewrite elem_of_edge_calls, (build_graph_fmap scanner Hnd). split.
    - intros (src & dests & dst & Hin & Hdst & Hkey & ->).
      apply list_elem_of_fmap in Hin as ([k r] & [= -> ->] & Hin). simpl in Hdst.
      exists k, dst, r. split_and!; [done| |set_solver|done].
      by apply dict_get_elem_of.
    - intros (src & dst & r & -> & Hr & Hdst & Hkey).
      exists src, (list_to_set (imports r)), dst. split_and!; [|set_solver|done..].
      apply list_elem_of_fmap. exists (src, r). split; [done|].
      by apply dict_get_elem_of_1. }
  split; [done|]. split; [done|]. split; [reflexivity|]. split; [exact Hedges|].
  intros src dst (src' & dst' & r & [= <- <-] & Hr & _ & Hkey)%Hedges.
  apply dict_elem_of_keys in Hkey as [r' Hr'].
  exists r, r'. split; apply elem_of_node_calls.
  - exists src, r. split; [by apply dict_get_elem_of_1|done].
  - exists dst, r'. split; [by apply dict_get_elem_of_1|done].
Qed.

(** The theorem on two modules that import each other and [os]. *)
Lemma build_interactive_graph_calls_witness :
  ∃ cycles nodes edges,
    find_cycles
      {| project_root := ["/"; "proj"];
         module_info := [("a", {| path := ["a.py"]; imports := ["b"; "os"] |});
                         ("b", {| path := ["b.py"]; imports := ["a"] |})] |}
    = Ok cycles
    ∧ build_interactive_graph
        {| project_root := ["/"; "proj"];
           module_info := [("a", {| path := ["a.py"]; imports := ["b"; "os"] |});
                           ("b", {| path := ["b.py"]; imports := ["a"] |})] |}
      = Ok (nodes ++ edges)
    ∧ length nodes = 2%nat.
Proof.
  destruct (build_interactive_graph_calls
    {| project_root := ["/"; "proj"];
       module_info := [("a", {| path := ["a.py"]; imports := ["b"; "os"] |});
                       ("b", {| path := ["b.py"]; imports := ["a"] |})] |})
    as (cycles & nodes & edges & Hcycles & Hcalls & Hnodes & _).
  - apply (bool_decide_unpack _). vm_compute. exact I.
  - exists cycles, nodes, edges. split; [exact Hcycles|]. split; [exact Hcalls|].
    rewrite Hnodes. reflexivity.
Defined.

(** X14: for a module map with distinct keys, a node is red exactly when
    its module is in a cycle that [find_cycles] returns, and gray
    otherwise; from every red node an edge is added to another red
    node. *)
Theorem build_interactive_graph_colors (scanner : ImportScanner) :
  NoDup (Dict.keys (module_info scanner)) →
  ∃ cycles calls,
    find_cycles scanner = Ok cycles
    ∧ build_interactive_graph scanner = Ok calls
    ∧ (∀ n label title color, add_node n label title color ∈ calls →
         (color = "red" ∧ ∃ c, c ∈ cycles ∧ n ∈ c)
         ∨ (color = "gray" ∧ ∀ c, c ∈ cycles → n ∉ c))
    ∧ (∀ n label title, add_node n label title "red" ∈ calls →
         ∃ dst title', dst ≠ n ∧ add_edge n dst ∈ calls
                       ∧ add_node dst dst title' "red" ∈ calls).
Proof.
  intros Hnd. unfold build_interactive_graph.
  destruct (find_cycles_spec scanner Hnd) as (cycles & Hcycles & Hmem & _).
  rewrite Hcycles. simpl. eexists cycles, _. split_and!; [done..| |].
  - intros n label title color [Hin|Hin]%elem_of_app.
    + apply elem_of_node_calls in Hin as (k & r & _ & [= -> -> -> ->]).
      destruct (node_color_cases (cycle_sets cycles) k) as [[Hred _]|[Hgray Hno]].
      * left. split; [done|]. by apply node_color_red.
      * right. split; [done|]. intros c Hc Hk.
        assert (Hred : node_color (cycle_sets cycles) k = "red")
          by (apply node_color_red; eauto).
        by rewrite Hgray in Hred.
    + by apply elem_of_edge_calls in Hin as (? & ? & ? & _ & _ & _ & ?).
  - intros n label title [Hin|Hin]%elem_of_app;
      [|by apply elem_of_edge_calls in Hin as (? & ? & ? & _ & _ & _ & ?)].
    apply elem_of_node_calls in Hin as (k & r & _ & [= -> -> -> Hred]).
    symmetry in Hred. apply node_color_red in Hred as (c & Hc & Hk).
    destruct (Hmem c k Hc Hk) as (rk & dst & Hrk & Himp & Hdst & Hne).
    destruct (Hmem c dst Hc Hdst) as (rd & _ & Hrd & _).
    exists dst, (path rd). split_and!; [done| |].
    + apply elem_of_app. right. apply elem_of_edge_calls.
      exists k, (list_to_set (imports rk)), dst. split_and!; [|set_solver| |done].
      * rewrite (build_graph_fmap scanner Hnd). apply list_elem_of_fmap.
        exists (k, rk). split; [done|]. by apply dict_get_elem_of_1.
      * apply dict_elem_of_keys. eauto.
    + apply elem_of_app. left. apply elem_of_node_calls. exists dst, rd.
      split; [by apply dict_get_elem_of_1|]. f_equal. symmetry.
      apply node_color_red. eauto.
Qed.

(** The theorem on two modules that import each other and [os]. *)
Lemma build_interactive_graph_colors_witness :
  ∃ cycles calls,
    find_cycles
      {| project_root := ["/"; "proj"];
         module_info := [("a", {| path := ["a.py"]; imports := ["b"; "os"] |});
                         ("b", {| path := ["b.py"]; imports := ["a"] |})] |}
    = Ok cycles
    ∧ build_interactive_graph
        {| project_root := ["/"; "proj"];
           module_info := [("a", {| path := ["a.py"]; imports := ["b"; "os"] |});
                           ("b", {| path := ["b.py"]; imports := ["a"] |})] |}
      = Ok calls.
Proof.
  destruct (build_interactive_graph_colors
    {| project_root := ["/"; "proj"];
       module_info := [("a", {| path := ["a.py"]; imports := ["b"; "os"] |});
                       ("b", {| path := ["b.py"]; imports := ["a"] |})] |})
    as (cycles & calls & Hcycles & Hcalls & _).
  - apply (bool_decide_unpack _). vm_compute. exact I.
  - exists cycles, calls. split; [exact Hcycles|exact Hcalls].
Defined.

(** ** Tree view and command line *)

Lemma string_compare_trans (s1 s2 s3 : string) :
  String.compare s1 s2 ≠ Gt → String.compare s2 s3 ≠ Gt →
  String.compare s1 s3 ≠ Gt.
Proof.
  revert s2 s3. induction s1 as [|a s1 IH]; intros [|b s2] [|c s3]; simpl; try done.
  unfold Ascii.compare.
  destruct (N.compare_spec (N_of_ascii a) (N_of_ascii b)) as [Hab|Hab|Hab];
    destruct (N.compare_spec (N_of_ascii b) (N_of_ascii c)) as [Hbc|Hbc|Hbc];
    destruct (N.compare_spec (N_of_ascii a) (N_of_ascii c)) as [Hac|Hac|Hac];
    try done; try lia.
  apply IH.
Qed.

Lemma string_leb_trans (s1 s2 s3 : string) :
  String.leb s1 s2 = true → String.leb s2 s3 = true → String.leb s1 s3 = true.
Proof.
  unfold String.leb. intros H12 H23.
  pose proof (string_compare_trans s1 s2 s3) as Htrans.
  destruct (String.compare s1 s2), (String.compare s2 s3), (String.compare s1 s3);
    try done; by destruct Htrans.
Qed.

#[local] Instance item_le_trans : Transitive item_le.
Proof. intros a b c. apply string_leb_trans. Qed.

#[local] Instance item_le_total : Total item_le.
Proof. intros a b. apply String.leb_total. Qed.

(** [sorted] gives the items in ascending order of their keys. *)
Lemma sorted_items_spec mi :
  sorted_items mi ≡ₚ mi ∧ StronglySorted item_le (sorted_items mi).
Proof.
  split; [apply merge_sort_Permutation|].
  apply (StronglySorted_merge_sort item_le).
Qed.

Lemma elem_of_sorted_items mi item : item ∈ sorted_items mi ↔ item ∈ mi.
Proof.
  split; intros Hin.
  - eapply elem_of_Permutation_proper; [symmetry; apply sorted_items_spec|done].
  - eapply elem_of_Permutation_proper; [apply sorted_items_spec|done].
Qed.

(** X15: the status bar shows the number of entries of the module map and
    the number of cycles that [find_cycles] returns: no two returned
    cycles have the same members. The tree has one row per entry. *)
Theorem populate_tree_status (scanner : ImportScanner) :
  ∃ cycles items,
    find_cycles scanner = Ok cycles
    ∧ populate_tree scanner
      = Ok (items,
            "Scanned " +:+ str_nat (length (module_info scanner))
              +:+ " modules | Cycles: " +:+ str_nat (length cycles))
    ∧ length items = length (module_info scanner).
Proof.
  unfold populate_tree, find_cycles.
  destruct (strongly_connected_components_classes (build_graph scanner))
    as (cycles & Hcycles & Hnd & Hsize & _).
  rewrite Hcycles. simpl. eexists cycles, _. split; [done|].
  rewrite (size_cycle_sets cycles Hnd Hsize). split; [done|].
  rewrite length_fmap. apply Permutation_length, sorted_items_spec.
Qed.

(** X16: the rows of the tree are the entries of the module map in
    ascending order of the module names; a row has the module name, the
    number of its import targets and the targets joined by commas (a dash
    when there is none), and it is highlighted exactly when its module is
    in a cycle that [find_cycles] returns. *)
Theorem populate_tree_rows (scanner : ImportScanner) :
  ∃ cycles sorted items status,
    find_cycles scanner = Ok cycles
    ∧ populate_tree scanner = Ok (items, status)
    ∧ sorted ≡ₚ module_info scanner
    ∧ StronglySorted (λ a b, String.leb a.1 b.1 = true) sorted
    ∧ Forall2 (λ (item : string * ModuleRecord) (row : tree_item),
         columns row
         = [item.1; str_nat (length (imports item.2));
            match imports item.2 with
            | [] => "-"
            | _ => Py.join ", " (imports item.2)
            end]
         ∧ (highlighted row = true ↔ ∃ c, c ∈ cycles ∧ item.1 ∈ c))
        sorted items.
Proof.
  unfold populate_tree, find_cycles.
  destruct (strongly_connected_components_classes (build_graph scanner))
    as (cycles & Hcycles & _).
  rewrite Hcycles. simpl. eexists cycles, (sorted_items (module_info scanner)), _, _.
  split; [done|]. split; [done|].
  destruct (sorted_items_spec (module_info scanner)) as [Hperm Hsorted].
  split; [done|]. split; [done|].
  apply Forall2_fmap_r, Forall_Forall2_diag, Forall_forall.
  intros item _. simpl. split; [done|]. apply in_cycle_true.
Qed.



Lemma node_color_in_cycle cycles module :
  node_color (cycle_sets cycles) module
  = if in_cycle (cycle_sets cycles) module then "red" else "gray".
Proof.
  destruct (in_cycle (cycle_sets cycles) module) eqn:Hin.
  - by apply node_color_red, in_cycle_true.
  - destruct (node_color_cases (cycle_sets cycles) module) as [[Hred _]|[Hgray _]];
      [|done].
    apply node_color_red, in_cycle_true in Hred. congruence.
Qed.

(** X18: [rescan] returns: it scans, fills the tree and draws the graph;
    the tree and the graph then show the same modules, and a module has a
    highlighted row exactly when it has a red node, a row that is not
    highlighted exactly when it has a gray node. *)
Theorem rescan_views_agree at_root self :
  ∃ sc items status calls,
    rescan at_root self = Ok (sc, (items, status), calls)
    ∧ scan at_root self = Ok sc
    ∧ ∀ module (b : bool),
        (∃ row, row ∈ items ∧ head (columns row) = Some module
                ∧ highlighted row = b)
        ↔ (∃ title, add_node module module title (if b then "red" else "gray")
                    ∈ calls).
Proof.
  unfold rescan.
  destruct (scan_module_info at_root self) as (sc & Hsc & _).
  rewrite Hsc. cbn [mbind result_bind].
  unfold populate_tree, build_interactive_graph, find_cycles.
  destruct (strongly_connected_components_classes (build_graph sc))
    as (cycles & Hcycles & _).
  rewrite Hcycles. cbn [mbind result_bind].
  eexists sc, _, _, _. split; [done|]. split; [done|].
  intros module b. split.
  - intros (row & Hrow & Hhead & Hb).
    apply list_elem_of_fmap in Hrow as ([k r] & -> & Hin).
    simpl in Hhead, Hb. injection Hhead as ->.
    apply (proj1 (elem_of_sorted_items _ _)) in Hin.
    exists (path r). apply elem_of_app. left. apply elem_of_node_calls.
    exists module, r. split; [done|]. by rewrite node_color_in_cycle, Hb.
  - intros (title & [Hin|Hin]%elem_of_app);
      [|by apply elem_of_edge_calls in Hin as (? & ? & ? & _ & _ & _ & ?)].
    apply elem_of_node_calls in Hin as (k & r & Hin & Hcall).
    injection Hcall as Hk _ Htitle Hcolor. subst k title.
    eexists. split.
    + apply list_elem_of_fmap. exists (module, r). split; [done|].
      by apply elem_of_sorted_items.
    + split; [done|]. simpl. rewrite node_color_in_cycle in Hcolor.
      by destruct b, (in_cycle (cycle_sets cycles) module).
Qed.

(** X19: for a scanner that has not scanned, as the window has it when it
    opens, the tree has no row, the status bar counts no module and no
    cycle, and the graph has no node and no edge. *)
Theorem views_before_scan (project_root : Path) :
  populate_tree (new_scanner project_root)
  = Ok ([], "Scanned 0 modules | Cycles: 0")
  ∧ build_interactive_graph (new_scanner project_root) = Ok [].
Proof. split; reflexivity. Qed.
